(** * RadiSense search engine: a shallow embedding and its verified properties

    The engine (class [RadiSenseSearchEngine]) keeps a document store, an
    inverted index from terms to sets of document ids, a table of document
    lengths and two counters.  [addDocument] tokenizes the string fields of a
    document into the index; [search] walks the whole index for every field
    and query term, scores prefix and fuzzy hits with BM25+ and returns the
    ranked, thresholded and truncated list.

    Data is modelled the way the TypeScript has it:
    - a string is its sequence of UTF-16 code units ([JSString]), so [length]
      is [String.prototype.length] and [nth_error] is indexing;
    - a number that takes part in scoring is an IEEE 754 binary64 value
      (a primitive [float]); counters and lengths, which stay far below 2^53,
      are natural numbers converted with [of_nat] where the code does
      arithmetic on them;
    - [Map] and [Set] are lists in insertion order, with the update rules of
      the JavaScript collections;
    - an object that the code indexes by name (a document, the table [boost])
      is a plain object: the list of its own properties, with
      [Object.prototype] behind it, so that a name it does not hold itself
      is looked up among the members every object inherits;
    - the functions of the host that the code calls but does not define
      ([Math.log], [String.prototype.toLowerCase], [Number.prototype.toString],
      the string-to-number coercion and the text of an inherited member) are
      the fields of the class [Host]. *)

From Stdlib Require Import Ascii String.
From Stdlib Require Import List Arith ZArith NArith Bool Lia Floats Uint63.
From Stdlib Require Import Permutation.
Import ListNotations.

Set Warnings "-inexact-float".
Local Open Scope nat_scope.

(* ------------------------------------------------------------------ *)
(** ** JavaScript strings *)

Module JS.

(** A string is the list of its UTF-16 code units. *)
Definition JSString : Type := list N.

Definition str_eq_dec : forall s t : JSString, {s = t} + {s <> t} :=
  list_eq_dec N.eq_dec.

Definition str_eqb (s t : JSString) : bool :=
  if str_eq_dec s t then true else false.

(** A literal of ASCII text, for examples. *)
Fixpoint lit (s : string) : JSString :=
  match s with
  | EmptyString => []
  | String c s' => N_of_ascii c :: lit s'
  end.

(** [String.prototype.startsWith]. *)
Fixpoint startsWith (s prefix : JSString) : bool :=
  match prefix, s with
  | [], _ => true
  | _ :: _, [] => false
  | p :: prefix', c :: s' => N.eqb c p && startsWith s' prefix'
  end.

(** Truthiness of a string ([if (term)], [a && b]): non-empty. *)
Definition str_truthy (s : JSString) : bool :=
  match s with [] => false | _ :: _ => true end.

End JS.
Import JS.

(* ------------------------------------------------------------------ *)
(** ** JavaScript numbers *)

Module Num.

Local Open Scope float_scope.

(** A counter or a length as a number. *)
Definition of_nat (n : nat) : float := PrimFloat.of_uint63 (Uint63.of_Z (Z.of_nat n)).

Definition is_zero (x : float) : bool := PrimFloat.eqb x 0.

(** Truthiness of a number: neither zero (of either sign) nor NaN. *)
Definition truthy (x : float) : bool := negb (is_zero x || PrimFloat.is_nan x).

(** [x || 0] on numbers. *)
Definition or_zero (x : float) : float := if truthy x then x else 0.

(** An integer as a number (exact below 2^53 in absolute value). *)
Definition of_Z (z : Z) : float :=
  match z with
  | Z0 => 0
  | Zpos _ => PrimFloat.of_uint63 (Uint63.of_Z z)
  | Zneg _ => - PrimFloat.of_uint63 (Uint63.of_Z (- z))
  end.

(** [Math.round]: the nearest integer, ties towards +infinity; zeros,
    infinities and NaN are returned as they are, and a result that rounds to
    zero keeps the sign of the argument.  A finite [x] is [m * 2^e] with an
    integer [m], so [floor (x + 1/2)] is computed exactly on integers. *)
Definition Math_round (x : float) : float :=
  match Prim2SF x with
  | S754_finite neg m e =>
      if (0 <=? e)%Z then x
      else
        let sm := if neg then Z.neg m else Z.pos m in
        let r := ((2 * sm + 2 ^ (- e)) / 2 ^ (1 - e))%Z in
        if (r =? 0)%Z then (if neg then -0 else 0) else of_Z r
  | _ => x
  end.

(** [Math.min] of two numbers. *)
Definition Math_min (x y : float) : float :=
  if PrimFloat.is_nan x || PrimFloat.is_nan y then nan
  else if PrimFloat.ltb x y then x
  else if PrimFloat.ltb y x then y
  else if PrimFloat.eqb (1 / x) neg_infinity then x else y.

End Num.

(* ------------------------------------------------------------------ *)
(** ** Map and Set in insertion order *)

Module Coll.

Section MapOps.
Context {V : Type}.

Definition JSMap : Type := list (JSString * V).

(** [Map.prototype.get]. *)
Fixpoint get (m : JSMap) (k : JSString) : option V :=
  match m with
  | [] => None
  | (k', v) :: m' => if str_eqb k' k then Some v else get m' k
  end.

(** [Map.prototype.set]: an existing key keeps its place, a new key goes
    to the end. *)
Fixpoint set (m : JSMap) (k : JSString) (v : V) : JSMap :=
  match m with
  | [] => [(k, v)]
  | (k', v') :: m' =>
      if str_eqb k' k then (k', v) :: m' else (k', v') :: set m' k v
  end.

(** [Map.prototype.size]. *)
Definition size (m : JSMap) : nat := length m.

Definition keys (m : JSMap) : list JSString := map fst m.
End MapOps.
Arguments JSMap V : clear implicits.

(** [Set<string>]. *)
Definition JSSet : Type := list JSString.

Definition has (s : JSSet) (x : JSString) : bool :=
  existsb (str_eqb x) s.

(** [Set.prototype.add]. *)
Definition add (s : JSSet) (x : JSString) : JSSet :=
  if has s x then s else s ++ [x].

End Coll.

(* ------------------------------------------------------------------ *)
(** ** Edit distance: the method [_levenshteinDistance] *)

Module Lev.

(** [number[][]]: rows of cells. *)
Definition Matrix : Type := list (list nat).

(** Assignment to an index of the array.  The loops stay inside the matrix
    (lemma [LevFacts.matrix_done]); outside it JavaScript would extend the
    array, and this function leaves it as it is. *)
Fixpoint upd {A : Type} (l : list A) (i : nat) (x : A) : list A :=
  match l, i with
  | [], _ => []
  | _ :: l', O => x :: l'
  | y :: l', S i' => y :: upd l' i' x
  end.

(** [matrix[r][c]], read inside the matrix only. *)
Definition mget (matrix : Matrix) (r c : nat) : nat :=
  nth c (nth r matrix []) 0.

(** [matrix[r][c] = v]. *)
Definition mset (matrix : Matrix) (r c v : nat) : Matrix :=
  upd matrix r (upd (nth r matrix []) c v).

(** [s[i] === t[j]] on one-unit strings ([undefined] out of range). *)
Definition unit_eqb (x y : option N) : bool :=
  match x, y with
  | Some a, Some b => N.eqb a b
  | None, None => true
  | _, _ => false
  end.

(** [Array.from({length: target.length + 1}, (_, rowIndex) =>
      Array(source.length + 1).fill(0).map((_, colIndex) =>
        rowIndex === 0 ? colIndex : rowIndex))]. *)
Definition initMatrix (source target : JSString) : Matrix :=
  map (fun rowIndex =>
         map (fun colIndex => if rowIndex =? 0 then colIndex else rowIndex)
             (seq 0 (length source + 1)))
      (seq 0 (length target + 1)).

(** The body of the inner loop. *)
Definition fillCell (source target : JSString) (rowIndex : nat)
    (matrix : Matrix) (colIndex : nat) : Matrix :=
  let cost :=
    if unit_eqb (nth_error source (colIndex - 1)) (nth_error target (rowIndex - 1))
    then 0 else 1 in
  mset matrix rowIndex colIndex
    (Nat.min (Nat.min (mget matrix (rowIndex - 1) colIndex + 1)
                      (mget matrix rowIndex (colIndex - 1) + 1))
             (mget matrix (rowIndex - 1) (colIndex - 1) + cost)).

(** [for (let colIndex = 1; colIndex <= source.length; colIndex++)]. *)
Definition fillRow (source target : JSString) (matrix : Matrix) (rowIndex : nat) : Matrix :=
  fold_left (fillCell source target rowIndex) (seq 1 (length source)) matrix.

(** [for (let rowIndex = 1; rowIndex <= target.length; rowIndex++)], then
    the bottom-right cell. *)
Definition _levenshteinDistance (source target : JSString) : nat :=
  let matrix :=
    fold_left (fillRow source target) (seq 1 (length target)) (initMatrix source target) in
  mget matrix (length target) (length source).

End Lev.

(* ------------------------------------------------------------------ *)
(** ** What an edit distance is *)

Module Edit.

Section Edits.
Context {A : Type}.

(** One single-character edit, anywhere in the string. *)
Inductive edit1 : list A -> list A -> Prop :=
| edit_insert (p q : list A) (c : A) : edit1 (p ++ q) (p ++ c :: q)
| edit_delete (p q : list A) (c : A) : edit1 (p ++ c :: q) (p ++ q)
| edit_substitute (p q : list A) (c c' : A) :
    c <> c' -> edit1 (p ++ c :: q) (p ++ c' :: q).

(** [edits n s t]: [n] single-character edits transform [s] into [t]. *)
Inductive edits : nat -> list A -> list A -> Prop :=
| edits_done (s : list A) : edits 0 s s
| edits_more (n : nat) (s u t : list A) :
    edits n s u -> edit1 u t -> edits (S n) s t.

(** [d] is the minimum number of edits that transform [s] into [t]. *)
Definition edit_distance (s t : list A) (d : nat) : Prop :=
  edits d s t /\ forall n, edits n s t -> d <= n.
End Edits.

(** The recurrence of the distance, on the first characters; the tool of the
    proof that the matrix holds distances of prefixes. *)
Fixpoint lev (s t : list N) {struct s} : nat :=
  match s with
  | [] => length t
  | a :: s' =>
      (fix lev_s (t : list N) : nat :=
         match t with
         | [] => length s
         | b :: t' =>
             Nat.min (Nat.min (lev s' t + 1) (lev_s t' + 1))
                     (lev s' t' + if N.eqb a b then 0 else 1)
         end) t
  end.

(** An edit seen from the front of the string. *)
Inductive edit_front : list N -> list N -> Prop :=
| front_insert t c : edit_front t (c :: t)
| front_delete t c : edit_front (c :: t) t
| front_substitute t c c' : edit_front (c :: t) (c' :: t)
| front_skip t t' c : edit_front t t' -> edit_front (c :: t) (c :: t').

End Edit.

(* ------------------------------------------------------------------ *)
(** ** The invariant of the matrix *)

Module LevInv.
Import Lev Edit.

(** A matrix of [rows] rows of [cols] cells. *)
Definition dims (matrix : Matrix) (rows cols : nat) : Prop :=
  length matrix = rows /\ forall r, r < rows -> length (nth r matrix []) = cols.

(** The distance between the first [c] units of [source] and the first [r]
    of [target], read from their last units backwards. *)
Definition D (source target : JSString) (r c : nat) : nat :=
  lev (rev (firstn c source)) (rev (firstn r target)).

(** Rows [0..k] are final and row [k+1] is final up to column [j]. *)
Definition cells_done (source target : JSString) (k j : nat) (matrix : Matrix) : Prop :=
  dims matrix (length target + 1) (length source + 1) /\
  (forall r c, r <= k -> c <= length source -> mget matrix r c = D source target r c) /\
  (forall c, c <= j -> mget matrix (S k) c = D source target (S k) c) /\
  (forall r, S k < r -> r <= length target -> mget matrix r 0 = r).

(** Rows [0..k] are final, the rows below are as initialised. *)
Definition rows_done (source target : JSString) (k : nat) (matrix : Matrix) : Prop :=
  dims matrix (length target + 1) (length source + 1) /\
  (forall r c, r <= k -> c <= length source -> mget matrix r c = D source target r c) /\
  (forall r, k < r -> r <= length target -> mget matrix r 0 = r).

End LevInv.

(* ------------------------------------------------------------------ *)
(** ** The host *)

(** What the code uses from the JavaScript runtime without defining it.
    [Math_log] is implementation-approximated in ECMAScript;
    [toLowerCase] follows the Unicode case mappings; [Number_toString] is
    [Number.prototype.toString]; [String_toNumber] is the coercion of a
    string operand of [*]; [Member_toString name] is what [toString()]
    answers on the member [name] of [Object.prototype], the text of a
    built-in function for most of them. *)
Class Host : Type := {
  Math_log : float -> float;
  toLowerCase : JSString -> JSString;
  Number_toString : float -> JSString;
  String_toNumber : JSString -> float;
  Member_toString : JSString -> JSString;
}.

(* ------------------------------------------------------------------ *)
(** ** The tokenizer *)

Module Tokenizer.

(** The character class of [SPACE_OR_PUNCTUATION], range by range as the
    regular expression lists it.  Every range lies in the Basic Multilingual
    Plane and outside the surrogates, so under the [u] flag the class tests a
    code unit. *)
Definition SPACE_OR_PUNCTUATION_class : list (N * N) :=
  [ (0x000A, 0x000A); (0x000D, 0x000D); (0x0020, 0x0023); (0x0025, 0x002A);
    (0x002C, 0x002F); (0x003A, 0x003A); (0x003B, 0x003B); (0x003F, 0x003F);
    (0x0040, 0x0040); (0x005B, 0x005D); (0x005F, 0x005F); (0x007B, 0x007B);
    (0x007D, 0x007D); (0x00A0, 0x00A0); (0x00A1, 0x00A1); (0x00A7, 0x00A7);
    (0x00AB, 0x00AB); (0x00B6, 0x00B6); (0x00B7, 0x00B7); (0x00BB, 0x00BB);
    (0x00BF, 0x00BF); (0x037E, 0x037E); (0x0387, 0x0387); (0x055A, 0x055F);
    (0x0589, 0x0589); (0x058A, 0x058A); (0x05BE, 0x05BE); (0x05C0, 0x05C0);
    (0x05C3, 0x05C3); (0x05C6, 0x05C6); (0x05F3, 0x05F3); (0x05F4, 0x05F4);
    (0x0609, 0x0609); (0x060A, 0x060A); (0x060C, 0x060C); (0x060D, 0x060D);
    (0x061B, 0x061B); (0x061E, 0x061E); (0x061F, 0x061F); (0x066A, 0x066D);
    (0x06D4, 0x06D4); (0x0700, 0x070D); (0x07F7, 0x07F9); (0x0830, 0x083E);
    (0x085E, 0x085E); (0x0964, 0x0964); (0x0965, 0x0965); (0x0970, 0x0970);
    (0x09FD, 0x09FD); (0x0A76, 0x0A76); (0x0AF0, 0x0AF0); (0x0C77, 0x0C77);
    (0x0C84, 0x0C84); (0x0DF4, 0x0DF4); (0x0E4F, 0x0E4F); (0x0E5A, 0x0E5A);
    (0x0E5B, 0x0E5B); (0x0F04, 0x0F12); (0x0F14, 0x0F14); (0x0F3A, 0x0F3D);
    (0x0F85, 0x0F85); (0x0FD0, 0x0FD4); (0x0FD9, 0x0FD9); (0x0FDA, 0x0FDA);
    (0x104A, 0x104F); (0x10FB, 0x10FB); (0x1360, 0x1368); (0x1400, 0x1400);
    (0x166E, 0x166E); (0x1680, 0x1680); (0x169B, 0x169B); (0x169C, 0x169C);
    (0x16EB, 0x16ED); (0x1735, 0x1735); (0x1736, 0x1736); (0x17D4, 0x17D6);
    (0x17D8, 0x17DA); (0x1800, 0x180A); (0x1944, 0x1944); (0x1945, 0x1945);
    (0x1A1E, 0x1A1E); (0x1A1F, 0x1A1F); (0x1AA0, 0x1AA6); (0x1AA8, 0x1AAD);
    (0x1B5A, 0x1B60); (0x1BFC, 0x1BFF); (0x1C3B, 0x1C3F); (0x1C7E, 0x1C7E);
    (0x1C7F, 0x1C7F); (0x1CC0, 0x1CC7); (0x1CD3, 0x1CD3); (0x2000, 0x200A);
    (0x2010, 0x2029); (0x202F, 0x2043); (0x2045, 0x2051); (0x2053, 0x205F);
    (0x207D, 0x207D); (0x207E, 0x207E); (0x208D, 0x208D); (0x208E, 0x208E);
    (0x2308, 0x230B); (0x2329, 0x2329); (0x232A, 0x232A); (0x2768, 0x2775);
    (0x27C5, 0x27C5); (0x27C6, 0x27C6); (0x27E6, 0x27EF); (0x2983, 0x2998);
    (0x29D8, 0x29DB); (0x29FC, 0x29FC); (0x29FD, 0x29FD); (0x2CF9, 0x2CFC);
    (0x2CFE, 0x2CFE); (0x2CFF, 0x2CFF); (0x2D70, 0x2D70); (0x2E00, 0x2E2E);
    (0x2E30, 0x2E4F); (0x3000, 0x3003); (0x3008, 0x3011); (0x3014, 0x301F);
    (0x3030, 0x3030); (0x303D, 0x303D); (0x30A0, 0x30A0); (0x30FB, 0x30FB);
    (0xA4FE, 0xA4FE); (0xA4FF, 0xA4FF); (0xA60D, 0xA60F); (0xA673, 0xA673);
    (0xA67E, 0xA67E); (0xA6F2, 0xA6F7); (0xA874, 0xA877); (0xA8CE, 0xA8CE);
    (0xA8CF, 0xA8CF); (0xA8F8, 0xA8FA); (0xA8FC, 0xA8FC); (0xA92E, 0xA92E);
    (0xA92F, 0xA92F); (0xA95F, 0xA95F); (0xA9C1, 0xA9CD); (0xA9DE, 0xA9DE);
    (0xA9DF, 0xA9DF); (0xAA5C, 0xAA5F); (0xAADE, 0xAADE); (0xAADF, 0xAADF);
    (0xAAF0, 0xAAF0); (0xAAF1, 0xAAF1); (0xABEB, 0xABEB); (0xFD3E, 0xFD3E);
    (0xFD3F, 0xFD3F); (0xFE10, 0xFE19); (0xFE30, 0xFE52); (0xFE54, 0xFE61);
    (0xFE63, 0xFE63); (0xFE68, 0xFE68); (0xFE6A, 0xFE6A); (0xFE6B, 0xFE6B);
    (0xFF01, 0xFF03); (0xFF05, 0xFF0A); (0xFF0C, 0xFF0F); (0xFF1A, 0xFF1A);
    (0xFF1B, 0xFF1B); (0xFF1F, 0xFF1F); (0xFF20, 0xFF20); (0xFF3B, 0xFF3D);
    (0xFF3F, 0xFF3F); (0xFF5B, 0xFF5B); (0xFF5D, 0xFF5D); (0xFF5F, 0xFF65) ]%N.

Definition in_range (c : N) (r : N * N) : bool :=
  (fst r <=? c)%N && (c <=? snd r)%N.

Definition is_space_or_punctuation (c : N) : bool :=
  existsb (in_range c) SPACE_OR_PUNCTUATION_class.

Definition starts_with_separator (s : JSString) : bool :=
  match s with
  | [] => false
  | c :: _ => is_space_or_punctuation c
  end.

(** [s.split(SPACE_OR_PUNCTUATION)]: the pieces between the maximal runs of
    class characters ([+] is greedy), an empty piece before a leading run
    and after a trailing one, and one empty piece for the empty string. *)
Fixpoint split (s : JSString) : list JSString :=
  match s with
  | [] => [[]]
  | c :: s' =>
      if is_space_or_punctuation c then
        if starts_with_separator s' then split s' else [] :: split s'
      else
        match split s' with
        | piece :: pieces => (c :: piece) :: pieces
        | [] => [[c]]
        end
  end.

(** A string without a character of the class. *)
Definition clean (t : JSString) : Prop :=
  forallb (fun c => negb (is_space_or_punctuation c)) t = true.

(** The class [\s] of a regular expression without the [u] flag. *)
Definition is_whitespace (c : N) : bool :=
  existsb (in_range c)
    [ (0x0009, 0x000D); (0x0020, 0x0020); (0x00A0, 0x00A0); (0x1680, 0x1680);
      (0x2000, 0x200A); (0x2028, 0x2029); (0x202F, 0x202F); (0x205F, 0x205F);
      (0x3000, 0x3000); (0xFEFF, 0xFEFF) ]%N.

(** [[^\s]*?\.html$] matched at the start of [s]. *)
Fixpoint url_tail (s : JSString) : bool :=
  str_eqb s (lit ".html")
  || match s with
     | [] => false
     | c :: s' => negb (is_whitespace c) && url_tail s'
     end.

(** [/\/[^\s]*?\.html$/.test(s)]: a match may start at any slash. *)
Fixpoint url_like (s : JSString) : bool :=
  match s with
  | [] => false
  | c :: s' => (N.eqb c 0x2F && url_tail s') || url_like s'
  end.

Section WithHost.
Context `{Host}.

(** The array [terms] that [addDocument] builds for one string field. *)
Definition fieldTerms (fieldValue : JSString) : list JSString :=
  if url_like (toLowerCase fieldValue)
  then [toLowerCase fieldValue]
  else split (toLowerCase fieldValue).

(** The terms that pass [if (term)] and reach the index. *)
Definition emittedTerms (fieldValue : JSString) : list JSString :=
  filter str_truthy (fieldTerms fieldValue).
End WithHost.

End Tokenizer.

(* ------------------------------------------------------------------ *)
(** ** Documents, options and the engine *)

(** The interface [RadiSenseSearchOptions]; an optional member that is left
    out is [None]. *)
Module Options.
Import Coll.

Record RadiSenseSearchOptions : Type := {
  fields : list JSString;
  idField : JSString;
  customBoostFactorField : option JSString;
  boost : option (JSMap float);
  specificDocumentBoosts : option (list (JSString * float));
  initialResults : option (list JSString);
}.

End Options.

Module Engine.
Import Coll Options.

(** What indexing a document can answer: a [string | number] of the
    document, or the member of [Object.prototype] of that name (a built-in
    function, or the prototype itself for [__proto__]). *)
Inductive JSValue : Type :=
| VString (s : JSString)
| VNumber (x : float)
| VMember (name : JSString).

(** A document: its own properties in insertion order. *)
Definition Document : Type := JSMap JSValue.

(** The names that every object inherits from [Object.prototype]. *)
Definition inherited (name : JSString) : bool :=
  existsb (str_eqb name)
    [lit "constructor"; lit "toString"; lit "toLocaleString"; lit "valueOf";
     lit "hasOwnProperty"; lit "isPrototypeOf"; lit "propertyIsEnumerable";
     lit "__proto__"; lit "__defineGetter__"; lit "__defineSetter__";
     lit "__lookupGetter__"; lit "__lookupSetter__"].

(** [document[key]], with [None] for [undefined]: the own property, or else
    the inherited member.  [key in document] is [lookup] answering [Some]. *)
Definition lookup (document : Document) (key : JSString) : option JSValue :=
  match get document key with
  | Some v => Some v
  | None => if inherited key then Some (VMember key) else None
  end.

(** The private fields of [RadiSenseSearchEngine]. *)
Record State : Type := {
  options : RadiSenseSearchOptions;
  documents : JSMap Document;
  invertedIndex : JSMap JSSet;
  documentLengths : JSMap nat;
  totalDocuments : nat;
  averageDocumentLength : float;
  specificDocumentBoosts : JSMap float;
}.

Definition with_documents (e : State) (d : JSMap Document) : State :=
  {| options := options e; documents := d; invertedIndex := invertedIndex e;
     documentLengths := documentLengths e; totalDocuments := totalDocuments e;
     averageDocumentLength := averageDocumentLength e;
     specificDocumentBoosts := specificDocumentBoosts e |}.

Definition with_invertedIndex (e : State) (i : JSMap JSSet) : State :=
  {| options := options e; documents := documents e; invertedIndex := i;
     documentLengths := documentLengths e; totalDocuments := totalDocuments e;
     averageDocumentLength := averageDocumentLength e;
     specificDocumentBoosts := specificDocumentBoosts e |}.

Definition with_documentLengths (e : State) (l : JSMap nat) : State :=
  {| options := options e; documents := documents e; invertedIndex := invertedIndex e;
     documentLengths := l; totalDocuments := totalDocuments e;
     averageDocumentLength := averageDocumentLength e;
     specificDocumentBoosts := specificDocumentBoosts e |}.

Definition with_totalDocuments (e : State) (n : nat) : State :=
  {| options := options e; documents := documents e; invertedIndex := invertedIndex e;
     documentLengths := documentLengths e; totalDocuments := n;
     averageDocumentLength := averageDocumentLength e;
     specificDocumentBoosts := specificDocumentBoosts e |}.

Definition with_specificDocumentBoosts (e : State) (b : JSMap float) : State :=
  {| options := options e; documents := documents e; invertedIndex := invertedIndex e;
     documentLengths := documentLengths e; totalDocuments := totalDocuments e;
     averageDocumentLength := averageDocumentLength e;
     specificDocumentBoosts := b |}.

(** [constructor(options)]. *)
Definition constructor (opts : RadiSenseSearchOptions) : State :=
  {| options := opts;
     documents := [];
     invertedIndex := [];
     documentLengths := [];
     totalDocuments := 0;
     averageDocumentLength := 0%float;
     specificDocumentBoosts :=
       match Options.specificDocumentBoosts opts with
       | Some boosts =>
           fold_left (fun m (b : JSString * float) => set m (fst b) (snd b)) boosts []
       | None => []
       end |}.

(** How a call ends. *)
Inductive Completion : Type :=
| Normal
| ThrowTypeError.

Section WithHost.
Context `{Host}.

(** [value.toString()]. *)
Definition toString (v : JSValue) : JSString :=
  match v with
  | VString s => s
  | VNumber x => Number_toString x
  | VMember name => Member_toString name
  end.

(** The projection of a document on the id field and the configured
    fields: [{[idField]: documentId, ...fields.reduce(...)}], where
    [field in document] and [document[field]] find an inherited member
    too. *)
Definition filteredDocument (opts : RadiSenseSearchOptions)
    (document : Document) (documentId : JSString) : Document :=
  let picked :=
    fold_left
      (fun (acc : Document) field =>
         match lookup document field with
         | Some v => set acc field v
         | None => acc
         end)
      (fields opts) [] in
  fold_left (fun (o : Document) (kv : JSString * JSValue) => set o (fst kv) (snd kv))
            picked [(idField opts, VString documentId)].

(** The body of [terms.forEach]. *)
Definition indexTerm (documentId : JSString) (index : JSMap JSSet)
    (term : JSString) : JSMap JSSet :=
  if str_truthy term then
    set index term
        (add (match get index term with Some ids => ids | None => [] end) documentId)
  else index.

(** The body of the second [reduce]: the running length and the index. *)
Definition indexField (document : Document) (documentId : JSString)
    (acc : nat * JSMap JSSet) (field : JSString) : nat * JSMap JSSet :=
  match lookup document field with
  | Some (VString fieldValue) =>
      (fst acc + length fieldValue,
       fold_left (indexTerm documentId) (Tokenizer.fieldTerms fieldValue) (snd acc))
  | _ => acc
  end.

(** [addDocument(document)]: the completion and the state it leaves. *)
Definition addDocument (e : State) (document : Document) : Completion * State :=
  match lookup document (idField (options e)) with
  | None => (ThrowTypeError, e)
  | Some idValue =>
      let documentId := toString idValue in
      let e1 :=
        with_documents e
          (set (documents e) documentId
               (filteredDocument (options e) document documentId)) in
      let e2 := with_totalDocuments e1 (S (totalDocuments e1)) in
      let r :=
        fold_left (indexField document documentId) (fields (options e2))
                  (0, invertedIndex e2) in
      let e3 := with_invertedIndex e2 (snd r) in
      (Normal, with_documentLengths e3 (set (documentLengths e3) documentId (fst r)))
  end.

(** A sequence of calls, each on the state the previous one left. *)
Definition addDocuments (e : State) (docs : list Document) : State :=
  fold_left (fun e d => snd (addDocument e d)) docs e.
End WithHost.

End Engine.

(* ------------------------------------------------------------------ *)
(** ** Scoring and search *)

Module Search.
Import Coll Options Engine Num.
Local Open Scope float_scope.

(** An entry of the list that [search] returns; [document] is [None] when
    [this.documents.get(id)] is [undefined], and [textMatch] is set on the
    general path only. *)
Record SearchResult : Type := {
  documentId : JSString;
  score : float;
  document : option Document;
  textMatch : option float;
}.

(** The optional argument [filterFunction]; what it returns is used as a
    boolean.  It can be handed [undefined] ([None]) on the wildcard path. *)
Definition Filter : Type := option (option Document -> bool).

(** The accumulator of a search: the map [results] and, to observe the
    calls of the filter, the ids of the documents it was called on. *)
Record Acc : Type := {
  results : JSMap float;
  filterCalls : list JSString;
}.

(** [Array.prototype.sort(compare)]: a stable sort.  For a consistent
    comparator the order is unique and this insertion sort computes it.  For
    an inconsistent one (a NaN among the keys makes [b.score - a.score] NaN,
    which counts as equal) ECMAScript leaves the order to the
    implementation; here an element moves left past the neighbours it is
    strictly before and stops at the first it is not.  V8 returns the same
    order on the three-entry list of [Sample.engineRank]: every comparison of
    neighbours says equal, so its run detection leaves the array as it is;
    on other lists with a NaN among the scores its order can be another.
    [sorted] is the sorted prefix, last element first. *)
Fixpoint insert_sorted {A : Type} (compare : A -> A -> float) (x : A)
    (sorted : list A) : list A :=
  match sorted with
  | [] => [x]
  | y :: rest =>
      if PrimFloat.ltb (compare x y) 0
      then y :: insert_sorted compare x rest
      else x :: y :: rest
  end.

Definition Array_sort {A : Type} (compare : A -> A -> float) (l : list A) : list A :=
  rev (fold_left (fun sorted x => insert_sorted compare x sorted) l []).

(** [x] sorts strictly before [y] under the comparator. *)
Definition before {A : Type} (compare : A -> A -> float) (x y : A) : Prop :=
  PrimFloat.ltb (compare x y) 0 = true.

Section WithHost.
Context `{Host}.

(** [_calculateBM25(documentId, term)]. *)
Definition _calculateBM25 (e : State) (documentId term : JSString) : float :=
  let k := 1.2 in
  let b := 0.7 in
  let d := 0.5 in
  let documentLength :=
    of_nat (match get (documentLengths e) documentId with Some n => n | None => 0%nat end) in
  let termDocuments :=
    match get (invertedIndex e) term with Some ids => ids | None => [] end in
  let termFrequency := if has termDocuments documentId then 1 else 0 in
  let documentFrequency := of_nat (length termDocuments) in
  let IDF :=
    Math_log ((of_nat (totalDocuments e) - documentFrequency + 0.5)
              / (documentFrequency + 0.5) + 1) in
  let frequencyComponent :=
    (termFrequency * (k + 1))
    / (termFrequency + k * (1 - b + b * (documentLength / averageDocumentLength e)))
    + d in
  IDF * frequencyComponent.

(** A value used as a number: [(v as number) * 0.011] coerces a string, and
    an inherited member (a function, an object) coerces to NaN. *)
Definition toNumber (v : JSValue) : float :=
  match v with
  | VNumber x => x
  | VString s => String_toNumber s
  | VMember _ => nan
  end.

(** The score of one candidate, from [let score = this._calculateBM25(...)]
    to the custom boost. *)
Definition candidateScore (e : State) (field : JSString) (penaltyFactor : float)
    (indexedTerm documentId : JSString) (doc : Document) : float :=
  let score := _calculateBM25 e documentId indexedTerm in
  let score := score * penaltyFactor in
  let score :=
    match get (specificDocumentBoosts e) documentId with
    | Some specificBoost => if truthy specificBoost then score * specificBoost else score
    | None => score
    end in
  let score :=
    match boost (options e) with
    | Some boosts =>
        match get boosts field with
        | Some fieldBoost => if truthy fieldBoost then score * fieldBoost else score
        | None => if inherited field then score * toNumber (VMember field) else score
        end
    | None => score
    end in
  match customBoostFactorField (options e) with
  | Some customField =>
      if str_truthy customField then
        match lookup doc customField with
        | Some v => score + toNumber v * 0.011
        | None => score
        end
      else score
  | None => score
  end.

(** The body of [docIds.forEach]: a document missing from the store is
    passed over; the filter, when there is one, is called on the stored
    document; a document that is kept adds its score to [results]. *)
Definition scoreDocument (e : State) (filterFunction : Filter) (field : JSString)
    (penaltyFactor : float) (indexedTerm : JSString) (acc : Acc)
    (documentId : JSString) : Acc :=
  match get (documents e) documentId with
  | None => acc
  | Some doc =>
      let calls :=
        match filterFunction with
        | Some _ => filterCalls acc ++ [documentId]
        | None => filterCalls acc
        end in
      let rejected :=
        match filterFunction with
        | Some f => negb (f (Some doc))
        | None => false
        end in
      if rejected then {| results := results acc; filterCalls := calls |}
      else
        let score := candidateScore e field penaltyFactor indexedTerm documentId doc in
        let currentScore :=
          match get (results acc) documentId with
          | Some s => or_zero s
          | None => 0
          end in
        {| results := set (results acc) documentId (currentScore + score);
           filterCalls := calls |}
  end.

Definition isPrefixMatch (searchTerm indexedTerm : JSString) : bool :=
  startsWith indexedTerm searchTerm.

Definition isFuzzyMatch (maxDistance : float) (searchTerm indexedTerm : JSString) : bool :=
  PrimFloat.leb (of_nat (Lev._levenshteinDistance searchTerm indexedTerm)) maxDistance
  && negb (isPrefixMatch searchTerm indexedTerm).

(** The penalty of the match type (1 when the term does not match). *)
Definition penaltyFactor (maxDistance : float) (searchTerm indexedTerm : JSString) : float :=
  if isPrefixMatch searchTerm indexedTerm then
    let distance := of_nat (length indexedTerm) - of_nat (length searchTerm) in
    (0.375 * of_nat (length indexedTerm))
    / (of_nat (length indexedTerm) + 0.3 * distance)
  else if isFuzzyMatch maxDistance searchTerm indexedTerm then
    (0.45 * of_nat (length indexedTerm))
    / (of_nat (length indexedTerm)
       + of_nat (Lev._levenshteinDistance searchTerm indexedTerm))
  else 1.

(** The body of [this.invertedIndex.forEach]. *)
Definition visitEntry (e : State) (filterFunction : Filter) (field : JSString)
    (searchTerm : JSString) (maxDistance : float) (acc : Acc)
    (entry : JSString * JSSet) : Acc :=
  let indexedTerm := fst entry in
  let docIds := snd entry in
  if isPrefixMatch searchTerm indexedTerm
     || isFuzzyMatch maxDistance searchTerm indexedTerm
  then
    fold_left
      (scoreDocument e filterFunction field
         (penaltyFactor maxDistance searchTerm indexedTerm) indexedTerm)
      docIds acc
  else acc.

(** [Math.min(6, Math.round(searchTerm.length * 0.35))]. *)
Definition maxDistanceOf (searchTerm : JSString) : float :=
  Math_min 6 (Math_round (of_nat (length searchTerm) * 0.35)).

(** The body of [searchTerms.forEach]. *)
Definition visitTerm (e : State) (filterFunction : Filter) (field : JSString)
    (acc : Acc) (searchTerm : JSString) : Acc :=
  fold_left (visitEntry e filterFunction field searchTerm (maxDistanceOf searchTerm))
            (invertedIndex e) acc.

(** The field is skipped when it is the custom boost field. *)
Definition skipsField (e : State) (field : JSString) : bool :=
  match customBoostFactorField (options e) with
  | Some customField => str_eqb field customField
  | None => false
  end.

(** The body of [this.options.fields.forEach]. *)
Definition visitField (e : State) (filterFunction : Filter)
    (searchTerms : list JSString) (acc : Acc) (field : JSString) : Acc :=
  if skipsField e field then acc
  else fold_left (visitTerm e filterFunction field) searchTerms acc.

(** [query.toLowerCase().split(SPACE_OR_PUNCTUATION).filter((term) => term.length)]. *)
Definition searchTermsOf (query : JSString) : list JSString :=
  filter (fun term => negb (length term =? 0)%nat) (Tokenizer.split (toLowerCase query)).

(** The accumulator after the three nested loops. *)
Definition accumulate (e : State) (query : JSString) (filterFunction : Filter) : Acc :=
  fold_left (visitField e filterFunction (searchTermsOf query))
            (fields (options e))
            {| results := []; filterCalls := [] |}.

(** The list built from [results] before it is sorted. *)
Definition assemble (e : State) (res : JSMap float) : list SearchResult :=
  map (fun entry : JSString * float =>
         {| documentId := fst entry;
            score := snd entry;
            document := get (documents e) (fst entry);
            textMatch := Some (snd entry) |})
      res.

(** The wildcard path: the entries for [initialResults], then the filter. *)
Definition wildcard (e : State) (filterFunction : Filter) : list SearchResult :=
  match initialResults (options e) with
  | Some ids =>
      filter
        (fun result =>
           match filterFunction with
           | Some f => f (document result)
           | None => true
           end)
        (map (fun id =>
                {| documentId := id;
                   score := 1;
                   document := get (documents e) id;
                   textMatch := None |})
             ids)
  | None => []
  end.

Definition wildcardCalls (e : State) (filterFunction : Filter) : list JSString :=
  match initialResults (options e), filterFunction with
  | Some ids, Some _ => ids
  | _, _ => []
  end.

(** [search(query, filterFunction)] with the calls of the filter it made. *)
Definition search_traced (e : State) (query : JSString) (filterFunction : Filter)
    : list SearchResult * list JSString :=
  if str_eqb query (lit "*") then
    (wildcard e filterFunction, wildcardCalls e filterFunction)
  else
    let acc := accumulate e query filterFunction in
    (firstn 34
       (filter (fun result => PrimFloat.ltb 2.1 (score result))
          (Array_sort (fun a b => score b - score a)
             (assemble e (results acc)))),
     filterCalls acc).

(** [search(query, filterFunction)]. *)
Definition search (e : State) (query : JSString) (filterFunction : Filter)
    : list SearchResult :=
  fst (search_traced e query filterFunction).
End WithHost.

End Search.

(* ------------------------------------------------------------------ *)
(** ** The specification's formulas, in its own words *)

Module Spec.
Import Coll Options Engine Search Num.
Local Open Scope float_scope.

Section WithHost.
Context `{Host}.

(** Section 4.5, step 1: the BM25+ presence component with [k = 1.2],
    [b = 0.7], [delta = 0.5], for a posting set, a corpus size [N], a
    document length [len] and an average length [avg_len]. *)
Definition bm25 (avg_len : float) (N : nat) (posting : JSSet) (len : nat)
    (document_id : JSString) : float :=
  let k := 1.2 in
  let b := 0.7 in
  let delta := 0.5 in
  let tf := if has posting document_id then 1 else 0 in
  let df := of_nat (length posting) in
  let idf := Math_log ((of_nat N - df + 0.5) / (df + 0.5) + 1) in
  let norm := 1 - b + b * (of_nat len / avg_len) in
  let freq := tf * (k + 1) / (tf + k * norm) + delta in
  idf * freq.

(** The posting set of a term and the stored length of a document. *)
Definition posting (e : State) (term : JSString) : JSSet :=
  match get (invertedIndex e) term with Some ids => ids | None => [] end.

Definition stored_length (e : State) (document_id : JSString) : nat :=
  match get (documentLengths e) document_id with Some n => n | None => 0%nat end.

Definition base_score (e : State) (p : float) (indexed_term document_id : JSString) : float :=
  bm25 (averageDocumentLength e) (totalDocuments e) (posting e indexed_term)
       (stored_length e document_id) document_id * p.

(** Section 4.5, steps 2 to 5 as written: the specific boost multiplies
    whenever one is configured for the id, [boost[field]] whenever it is
    defined, and [cb * 0.011] is added whenever the custom boost field is
    configured and present on the document. *)
Definition contribution_as_stated (e : State) (field : JSString) (p : float)
    (indexed_term document_id : JSString) (doc : Document) : float :=
  let s := base_score e p indexed_term document_id in
  let s := match get (specificDocumentBoosts e) document_id with Some sb => s * sb | None => s end in
  let s :=
    match boost (options e) with
    | Some boosts => match get boosts field with Some fb => s * fb | None => s end
    | None => s
    end in
  match customBoostFactorField (options e) with
  | Some custom_field =>
      match get doc custom_field with
      | Some cb => s + toNumber cb * 0.011
      | None => s
      end
  | None => s
  end.

(** A multiplicative boost that is configured and is neither zero nor NaN. *)
Definition effective (factor : option float) : option float :=
  match factor with
  | Some x => if truthy x then Some x else None
  | None => None
  end.

(** The factor that [boost[field]] multiplies by, if any: the number of the
    table when it is neither zero nor NaN; for a name that the table only
    inherits, the member, which is defined and which multiplies as NaN. *)
Definition field_boost (e : State) (field : JSString) : option float :=
  match boost (options e) with
  | Some boosts =>
      match get boosts field with
      | Some fb => effective (Some fb)
      | None => if inherited field then Some (toNumber (VMember field)) else None
      end
  | None => None
  end.

(** The same steps with the guards of the code: a boost multiplies when it
    is configured and is neither zero nor NaN, and the custom boost field
    counts as configured when its name is not empty; [boost[field]] and
    [document[field]] are lookups, own property first. *)
Definition contribution (e : State) (field : JSString) (p : float)
    (indexed_term document_id : JSString) (doc : Document) : float :=
  let s := base_score e p indexed_term document_id in
  let s :=
    match effective (get (specificDocumentBoosts e) document_id) with
    | Some sb => s * sb
    | None => s
    end in
  let s :=
    match field_boost e field with
    | Some fb => s * fb
    | None => s
    end in
  match customBoostFactorField (options e) with
  | Some custom_field =>
      match (if str_truthy custom_field then lookup doc custom_field else None) with
      | Some cb => s + toNumber cb * 0.011
      | None => s
      end
  | None => s
  end.

(** The ids of the calls of [addDocument] that complete. *)
Definition completedIds (opts : RadiSenseSearchOptions) (docs : list Document)
    : list JSString :=
  flat_map (fun d => match lookup d (idField opts) with
                     | Some v => [toString v]
                     | None => []
                     end) docs.

(** The fields that [search] goes through. *)
Definition searchedFields (e : State) : list JSString :=
  filter (fun field => negb (skipsField e field)) (fields (options e)).

(** The id is in the document store. *)
Definition stored (e : State) (id : JSString) : bool :=
  match get (documents e) id with Some _ => true | None => false end.

(** The stored documents met in one pass over the index: for each query
    term, for each index entry that matches it, the ids of its posting that
    are in the store. *)
Definition visits (e : State) (searchTerms : list JSString) : list JSString :=
  flat_map
    (fun searchTerm =>
       flat_map
         (fun entry : JSString * JSSet =>
            if isPrefixMatch searchTerm (fst entry)
               || isFuzzyMatch (maxDistanceOf searchTerm) searchTerm (fst entry)
            then filter (stored e) (snd entry)
            else [])
         (invertedIndex e))
    searchTerms.
End WithHost.

(** The filter is called at most once per document. *)
Definition at_most_once_per_document (calls : list JSString) : Prop :=
  forall d, count_occ str_eq_dec calls d <= 1.

(** The engine without the specific boost of one id. *)
Definition without_boost (e : State) (document_id : JSString) : State :=
  with_specificDocumentBoosts e
    (filter (fun kv : JSString * float => negb (str_eqb (fst kv) document_id))
            (specificDocumentBoosts e)).

End Spec.

(* ------------------------------------------------------------------ *)
(** ** A host and engines to run the code on *)

Module Sample.
Import Coll Options Engine Search.

(** [toLowerCase] on ASCII text: [A]..[Z] move to [a]..[z]. *)
Definition ascii_toLowerCase (s : JSString) : JSString :=
  map (fun c => if (0x41 <=? c)%N && (c <=? 0x5A)%N then (c + 0x20)%N else c) s.

Local Open Scope float_scope.

(** A [Math.log]: the argument is reduced to [m * 2^k] with [m] between
    [sqrt 2 / 2] and [sqrt 2], and [ln m] is the series of
    [2 * atanh ((m - 1) / (m + 1))]. *)
Definition series_log (x : float) : float :=
  if PrimFloat.is_nan x || PrimFloat.ltb x 0 then nan
  else if PrimFloat.eqb x 0 then neg_infinity
  else if PrimFloat.eqb x infinity then infinity
  else
    let (m0, e0) := PrimFloat.frshiftexp x in
    let k0 := (Uint63.to_Z e0 - FloatOps.shift)%Z in
    let low := PrimFloat.ltb m0 0.70710678118654757 in
    let m := if low then 2 * m0 else m0 in
    let k := if low then (k0 - 1)%Z else k0 in
    let s := (m - 1) / (m + 1) in
    let z := s * s in
    let poly :=
      1 + z * (1/3 + z * (1/5 + z * (1/7 + z * (1/9 + z * (1/11 + z * (1/13
        + z * (1/15 + z * (1/17 + z * (1/19 + z * (1/21 + z * (1/23)))))))))))
    in
    2 * s * poly + Num.of_Z k * 0.69314718055994529.

(** The decimal digits of a natural number, most significant first. *)
Fixpoint digits (fuel : nat) (n : N) (acc : JSString) : JSString :=
  match fuel with
  | O => acc
  | S fuel' =>
      let acc' := (0x30 + n mod 10)%N :: acc in
      if (n / 10 =? 0)%N then acc' else digits fuel' (n / 10)%N acc'
  end.

(** [Number.prototype.toString] on the integers below 2^53; the examples
    convert no other number, and for those the empty string stands in. *)
Definition integer_toString (x : float) : JSString :=
  match Prim2SF x with
  | S754_zero _ => lit "0"
  | S754_finite neg m e =>
      let mag :=
        if (0 <=? e)%Z then Some (Z.pos m * 2 ^ e)%Z
        else if (Z.pos m mod 2 ^ (- e) =? 0)%Z then Some (Z.pos m / 2 ^ (- e))%Z
        else None in
      match mag with
      | Some z =>
          if (z <? 2 ^ 53)%Z
          then (if neg then lit "-" else []) ++ digits 17 (Z.to_N z) []
          else []
      | None => []
      end
  | _ => []
  end.

(** The coercion of a string of decimal digits (and of the empty string,
    which is 0); any other text is taken as not a number. *)
Definition digits_toNumber (s : JSString) : float :=
  if forallb (fun c => (0x30 <=? c)%N && (c <=? 0x39)%N) s
  then Num.of_Z (fold_left (fun z c => (10 * z + Z.of_N (c - 0x30))%Z) s 0%Z)
  else nan.

(** The text of an inherited member as V8 prints it: the prototype itself
    for [__proto__], a built-in function for the other names. *)
Definition v8_Member_toString (name : JSString) : JSString :=
  if str_eqb name (lit "__proto__") then lit "[object Object]"
  else if str_eqb name (lit "constructor") then lit "function Object() { [native code] }"
  else lit "function " ++ name ++ lit "() { [native code] }".

#[export] Instance host : Host := {
  Math_log := series_log;
  toLowerCase := ascii_toLowerCase;
  Number_toString := integer_toString;
  String_toNumber := digits_toNumber;
  Member_toString := v8_Member_toString;
}.

Definition str (s : string) : JSValue := VString (lit s).

(** The options of the scenarios of the specification. *)
Definition opts0 : RadiSenseSearchOptions :=
  {| fields := [lit "title"; lit "body"];
     idField := lit "path";
     customBoostFactorField := None;
     boost := None;
     Options.specificDocumentBoosts := None;
     initialResults := Some [lit "/a"; lit "/b"] |}.

Definition docA : Document :=
  [(lit "path", str "/a"); (lit "title", str "Hello"); (lit "body", str "world")].

(** One document indexed. *)
Definition engineA : State := addDocuments (constructor opts0) [docA].

(** The same document added twice. *)
Definition engineAA : State := addDocuments (constructor opts0) [docA; docA].

(** A filter that accepts every document. *)
Definition acceptAll : Filter := Some (fun _ => true).

(** A specific boost of 0 for [/a] and a field boost that lifts its score
    over the threshold. *)
Definition optsZeroBoost : RadiSenseSearchOptions :=
  {| fields := [lit "title"];
     idField := lit "path";
     customBoostFactorField := None;
     boost := Some [(lit "title", 100)];
     Options.specificDocumentBoosts := Some [(lit "/a", 0)];
     initialResults := None |}.

Definition engineZeroBoost : State := addDocuments (constructor optsZeroBoost) [docA].

(** Three documents share the term [hello]; a numeric field [rank] is the
    custom boost.  [x] is then added again with an empty title, which leaves
    it in the posting of [hello] with a stored length of 0. *)
Definition optsRank : RadiSenseSearchOptions :=
  {| fields := [lit "title"; lit "rank"];
     idField := lit "id";
     customBoostFactorField := Some (lit "rank");
     boost := None;
     Options.specificDocumentBoosts := None;
     initialResults := None |}.

Definition rankDoc (id title : string) (rank : float) : Document :=
  [(lit "id", str id); (lit "title", str title); (lit "rank", VNumber rank)].

Definition engineRank : State :=
  addDocuments (constructor optsRank)
    [rankDoc "a" "hello" 300; rankDoc "x" "hello" 100; rankDoc "c" "hello" 500;
     rankDoc "x" EmptyString 100].

(** An id field that every object inherits, and a document that does not
    hold it. *)
Definition optsInherited : RadiSenseSearchOptions :=
  {| fields := [lit "title"];
     idField := lit "constructor";
     customBoostFactorField := None;
     boost := None;
     Options.specificDocumentBoosts := None;
     initialResults := None |}.

Definition docNoId : Document := [(lit "title", str "no id")].

Definition engineInherited : State := constructor optsInherited.

(** An inherited name among the fields, with a boost table that does not
    hold it. *)
Definition optsInheritedField : RadiSenseSearchOptions :=
  {| fields := [lit "title"; lit "constructor"];
     idField := lit "path";
     customBoostFactorField := None;
     boost := Some [(lit "title", 2%float)];
     Options.specificDocumentBoosts := None;
     initialResults := None |}.

Definition engineInheritedField : State :=
  addDocuments (constructor optsInheritedField)
    [[(lit "path", str "/a"); (lit "title", str "Hello")]].

End Sample.

(* ------------------------------------------------------------------ *)
(** ** What ingest keeps true *)

Module Invariant.
Import Coll Options Engine.

(** The inverted index is well formed: one entry per term, no empty term,
    and every posting set is non-empty, without repetition, and made of ids
    of stored documents. *)
Definition index_ok (e : State) : Prop :=
  NoDup (keys (invertedIndex e))
  /\ forall term ids, In (term, ids) (invertedIndex e) ->
       term <> []
       /\ ids <> []
       /\ NoDup ids
       /\ forall id, In id ids -> In id (keys (documents e)).

(** The store is well formed: one entry per id, the length table has the
    same ids in the same order, the counter is at least the number of stored
    documents, and a stored document has no key besides the id field and the
    configured fields. *)
Definition store_ok (e : State) : Prop :=
  NoDup (keys (documents e))
  /\ keys (documentLengths e) = keys (documents e)
  /\ size (documents e) <= totalDocuments e
  /\ forall id doc k, In (id, doc) (documents e) -> In k (keys doc) ->
       k = idField (options e) \/ In k (fields (options e)).

(** The same conditions on an index, for the ids [stored]. *)
Definition entries_ok (stored : list JSString) (index : JSMap JSSet) : Prop :=
  NoDup (keys index)
  /\ forall term ids, In (term, ids) index ->
       term <> []
       /\ ids <> []
       /\ NoDup ids
       /\ forall id, In id ids -> In id stored.

(** The posting set of a term in an index, empty when the term is not there. *)
Definition postingIn (index : JSMap JSSet) (term : JSString) : JSSet :=
  match get index term with Some ids => ids | None => [] end.

(** Every term that the string fields of the document emit has the id in
    its posting set. *)
Definition covers `{Host} (opts : RadiSenseSearchOptions) (document : Document)
    (documentId : JSString) (index : JSMap JSSet) : Prop :=
  forall field fieldValue term,
    In field (fields opts) ->
    get document field = Some (VString fieldValue) ->
    In term (Tokenizer.emittedTerms fieldValue) ->
    In documentId (postingIn index term).

(** The document has the id field, with the id [documentId] as its string:
    [document[idField]] is defined and [toString()] on it gives the id. *)
Definition hasId `{Host} (opts : RadiSenseSearchOptions) (document : Document)
    (documentId : JSString) : Prop :=
  exists idValue,
    lookup document (idField opts) = Some idValue /\ toString idValue = documentId.

(** The document emits the term: a configured field of it holds a string
    that the tokenizer turns into terms, this one among them. *)
Definition emits `{Host} (opts : RadiSenseSearchOptions) (document : Document)
    (term : JSString) : Prop :=
  exists field fieldValue,
    In field (fields opts)
    /\ get document field = Some (VString fieldValue)
    /\ In term (Tokenizer.emittedTerms fieldValue).

(** The engine with no custom boost field configured. *)
Definition without_customBoostFactorField (e : State) : State :=
  {| options :=
       {| fields := fields (options e);
          idField := idField (options e);
          customBoostFactorField := None;
          boost := boost (options e);
          Options.specificDocumentBoosts := Options.specificDocumentBoosts (options e);
          initialResults := initialResults (options e) |};
     documents := documents e;
     invertedIndex := invertedIndex e;
     documentLengths := documentLengths e;
     totalDocuments := totalDocuments e;
     averageDocumentLength := averageDocumentLength e;
     specificDocumentBoosts := specificDocumentBoosts e |}.


(** The names that every object inherits from [Object.prototype]: for these
    [document[name]] is not [undefined] even on a document that does not
    hold the name itself. *)
Definition inherited (name : JSString) : bool := Engine.inherited name.

(** The factor of the last entry for the id in the list of boosts. *)
Definition lastBoost (boosts : list (JSString * float)) (id : JSString) : option float :=
  option_map snd (find (fun b : JSString * float => str_eqb (fst b) id) (rev boosts)).

End Invariant.

(* ------------------------------------------------------------------ *)
(** ** What a search can return *)

Module Retrieval.
Import Coll Options Engine Search.

(** The answer of the optional filter on a value, [true] without a filter. *)
Definition ask (filterFunction : Filter) (d : option Document) : bool :=
  match filterFunction with
  | Some f => f d
  | None => true
  end.

(** The indexed term is a prefix match or a fuzzy match of the query term. *)
Definition matches `{Host} (searchTerm indexedTerm : JSString) : bool :=
  isPrefixMatch searchTerm indexedTerm
  || isFuzzyMatch (maxDistanceOf searchTerm) searchTerm indexedTerm.

(** The id is met by the query: some index entry whose term matches a term
    of the query has it in its posting set, and its document is stored and
    kept by the filter. *)
Definition candidate `{Host} (e : State) (query : JSString) (filterFunction : Filter)
    (id : JSString) : Prop :=
  exists doc searchTerm entry,
    get (documents e) id = Some doc
    /\ ask filterFunction (Some doc) = true
    /\ In searchTerm (searchTermsOf query)
    /\ In entry (invertedIndex e)
    /\ matches searchTerm (fst entry) = true
    /\ In id (snd entry).

(** Every key of [results] is a candidate, and the keys are distinct. *)
Definition sound `{Host} (e : State) (query : JSString) (filterFunction : Filter)
    (acc : Acc) : Prop :=
  NoDup (keys (results acc))
  /\ forall id, In id (keys (results acc)) -> candidate e query filterFunction id.

End Retrieval.

(* ------------------------------------------------------------------ *)
(** ** The search worker *)

Module Worker.
Import Options.
Local Open Scope float_scope.

(** The options of the [create] action. *)
Definition createOptions : RadiSenseSearchOptions :=
  {| fields := [lit "path"; lit "title"; lit "excerpt"; lit "topKeywords";
                lit "breadcrumbs"];
     idField := lit "path";
     customBoostFactorField := Some (lit "pageRank");
     boost := Some [(lit "path", 0.2); (lit "title", 1); (lit "excerpt", 0.64);
                    (lit "topKeywords", 0.475); (lit "breadcrumbs", 0.64)];
     specificDocumentBoosts :=
       Some [(lit "/1/privat/vara_rantor.html", 10);
             (lit "/1/privat/kundservice/kontakt/kontakta_oss.html", 1.7);
             (lit "/privat/kundservice/service/betaladittbolan/autogiro.4.60cf5c40166e7b781fd13df.html",
              4.2)];
     initialResults :=
       Some [lit "/1/privat/bolan.html";
             lit "/1/privat/spara.html";
             lit "/1/privat/lana/privatlan/privatlan_-_sa_funkar_det.html";
             lit "/1/privat/vara_rantor.html";
             lit "/1/foretag__bostadsrattsforeningar/lana.html";
             lit "/1/foretag__bostadsrattsforeningar/spara.html"] |}.

(** The [data] of a message, as the [insertMultiple] case reads it:
    [documents], absent or an array, and [isLast] by its truthiness. *)
Record Data : Type := {
  documents : option (list Engine.Document);
  isLast : bool;
}.

(** A message, as [const { action, data } = event.data] takes it apart.  A
    property [documents] of the message itself is carried along: the handler
    does not read it. *)
Record Message : Type := {
  action : JSString;
  data : option Data;
  ownDocuments : option (list Engine.Document);
}.

(** What the handler posts: [{ status }]. *)
Inductive Post : Type :=
| Status (status : JSString).

Section WithHost.
Context `{Host}.

(** [data.documents.forEach((document) => radiSenseSearchEngine.addDocument(document))]
    on the module variable [radiSenseSearchEngine], which is [undefined]
    until [create]: the first call that throws ends the loop. *)
Fixpoint forEach_addDocument (engine : option Engine.State)
    (docs : list Engine.Document) : Engine.Completion * option Engine.State :=
  match docs with
  | [] => (Engine.Normal, engine)
  | document :: rest =>
      match engine with
      | None => (Engine.ThrowTypeError, None)
      | Some e =>
          match Engine.addDocument e document with
          | (Engine.Normal, e') => forEach_addDocument (Some e') rest
          | (Engine.ThrowTypeError, e') => (Engine.ThrowTypeError, Some e')
          end
      end
  end.

(** The case [insertMultiple]: the completion, the engine and the posts. *)
Definition insertMultiple (engine : option Engine.State) (data : option Data)
    : Engine.Completion * option Engine.State * list Post :=
  match data with
  | None => (Engine.ThrowTypeError, engine, [])
  | Some data =>
      let r := match documents data with
               | Some docs => forEach_addDocument engine docs
               | None => (Engine.Normal, engine)
               end in
      match fst r with
      | Engine.Normal =>
          (Engine.Normal, snd r,
           if isLast data then [Status (lit "Documents indexed")] else [])
      | Engine.ThrowTypeError => (Engine.ThrowTypeError, snd r, [])
      end
  end.

(** [self.onmessage] on the cases [create], [insertMultiple] and [default].
    The case [search] is not covered ([None]): its filter reads
    [document.breadcrumbs[0]], which the engine's [Document] does not type. *)
Definition onmessage (engine : option Engine.State) (message : Message)
    : option (Engine.Completion * option Engine.State * list Post) :=
  if str_eqb (action message) (lit "create") then
    Some (Engine.Normal, Some (Engine.constructor createOptions), [])
  else if str_eqb (action message) (lit "insertMultiple") then
    Some (insertMultiple engine (data message))
  else if str_eqb (action message) (lit "search") then None
  else Some (Engine.Normal, engine, []).
End WithHost.

End Worker.

(* ------------------------------------------------------------------ *)
(** ** The messages of the index hook *)

Module Hook.
Import Worker.

(** [postMessage({ action: "create" })]. *)
Definition createMessage : Message :=
  {| action := lit "create"; data := None; ownDocuments := None |}.

(** [postMessage({ action: "insertMultiple", documents: cachedCSV })], on the
    path where the cache answers. *)
Definition cachedMessage (cachedCSV : list Engine.Document) : Message :=
  {| action := lit "insertMultiple"; data := None; ownDocuments := Some cachedCSV |}.

(** [postMessage({ action: "insertMultiple", data: { documents: parsedCSVData, isLast } })],
    for each chunk of the fetched file. *)
Definition chunkMessage (parsedCSVData : list Engine.Document) (last : bool) : Message :=
  {| action := lit "insertMultiple";
     data := Some {| documents := Some parsedCSVData; isLast := last |};
     ownDocuments := None |}.

End Hook.

(* ================================================================== *)
(** * Properties *)

(* ------------------------------------------------------------------ *)
(** ** The edit distance *)

Module EditFacts.
Import Edit.

Section Chains.
Context {A : Type}.
Implicit Types s t u : list A.

Lemma edit1_cons (a : A) s t : edit1 s t -> edit1 (a :: s) (a :: t).
Proof.
  intros H; destruct H as [p q c | p q c | p q c c' Hc].
  - apply (edit_insert (a :: p) q c).
  - apply (edit_delete (a :: p) q c).
  - apply (edit_substitute (a :: p) q c c' Hc).
Qed.

Lemma edit1_rev s t : edit1 s t -> edit1 (rev s) (rev t).
Proof.
  intros H; destruct H as [p q c | p q c | p q c c' Hc];
    rewrite ?rev_app_distr; simpl; rewrite <- ?app_assoc; simpl.
  - apply edit_insert.
  - apply edit_delete.
  - apply edit_substitute; assumption.
Qed.

Lemma edits_first n s u t : edit1 s u -> edits n u t -> edits (S n) s t.
Proof.
  intros Hs Hn; induction Hn as [u | n u v t Hn IH Hv].
  - apply edits_more with (u := s); [apply edits_done | exact Hs].
  - apply edits_more with (u := v); [apply IH; exact Hs | exact Hv].
Qed.

Lemma edits_cons (a : A) n s t : edits n s t -> edits n (a :: s) (a :: t).
Proof.
  induction 1 as [s | n s u t Hn IH Hu].
  - apply edits_done.
  - apply edits_more with (u := a :: u); [exact IH | apply edit1_cons; exact Hu].
Qed.

Lemma edits_rev n s t : edits n s t -> edits n (rev s) (rev t).
Proof.
  induction 1 as [s | n s u t Hn IH Hu].
  - apply edits_done.
  - apply edits_more with (u := rev u); [exact IH | apply edit1_rev; exact Hu].
Qed.

Lemma edits_insert_all t : edits (length t) [] t.
Proof.
  induction t as [| b t IH]; simpl.
  - apply edits_done.
  - apply edits_first with (u := [b]).
    + apply (edit_insert [] [] b).
    + apply edits_cons; exact IH.
Qed.

Lemma edits_delete_all s : edits (length s) s [].
Proof.
  induction s as [| a s IH]; simpl.
  - apply edits_done.
  - apply edits_first with (u := s); [apply (edit_delete [] s a) | exact IH].
Qed.

Lemma edit_distance_rev s t d :
  edit_distance (rev s) (rev t) d -> edit_distance s t d.
Proof.
  intros [Hd Hmin]; split.
  - apply edits_rev in Hd; rewrite !rev_involutive in Hd; exact Hd.
  - intros n Hn; apply Hmin, edits_rev, Hn.
Qed.
End Chains.

Lemma edit1_front t t' : edit1 t t' -> edit_front t t'.
Proof.
  intros H; destruct H as [p q c | p q c | p q c c' Hc];
    induction p as [| a p IH]; simpl;
    try (apply front_skip; exact IH);
    constructor.
Qed.

Lemma lev_nil_r s : lev s [] = length s.
Proof. destruct s; reflexivity. Qed.

Lemma lev_cons a s b t :
  lev (a :: s) (b :: t) =
  Nat.min (Nat.min (lev s (b :: t) + 1) (lev (a :: s) t + 1))
          (lev s t + if N.eqb a b then 0 else 1).
Proof. reflexivity. Qed.

Lemma lev_drop_l a s t : lev (a :: s) t <= lev s t + 1.
Proof.
  destruct t as [| b t].
  - rewrite !lev_nil_r; simpl; lia.
  - rewrite lev_cons; lia.
Qed.

Lemma lev_drop_r s b t : lev s (b :: t) <= lev s t + 1.
Proof.
  destruct s as [| a s].
  - simpl; lia.
  - rewrite lev_cons; lia.
Qed.

Lemma lev_diag s t a b : lev (a :: s) (b :: t) <= lev s t + 1.
Proof. rewrite lev_cons; destruct (N.eqb a b); lia. Qed.

(** One more edit of the target moves the recurrence by at most one. *)
Lemma lev_edit_front t t' : edit_front t t' -> forall s, lev s t' <= lev s t + 1.
Proof.
  induction 1 as [t c | t c | t c c' | t t' c Ht IH]; intros s.
  - apply lev_drop_r.
  - induction s as [| a s IHs].
    + simpl; lia.
    + rewrite lev_cons.
      pose proof (lev_drop_l a s t). destruct (N.eqb a c); lia.
  - induction s as [| a s IHs].
    + simpl; lia.
    + rewrite (lev_cons a s c t).
      pose proof (lev_drop_l a s (c' :: t)).
      pose proof (lev_drop_r (a :: s) c' t).
      pose proof (lev_diag s t a c').
      destruct (N.eqb a c); lia.
  - induction s as [| a s IHs].
    + specialize (IH []); simpl in *; lia.
    + rewrite (lev_cons a s c t), (lev_cons a s c t').
      pose proof (IH (a :: s)). pose proof (IH s).
      destruct (N.eqb a c); lia.
Qed.

Lemma lev_refl s : lev s s = 0.
Proof.
  induction s as [| a s IH]; [reflexivity |].
  rewrite lev_cons, IH, N.eqb_refl; lia.
Qed.

Lemma lev_lower n s t : edits n s t -> lev s t <= n.
Proof.
  induction 1 as [s | n s u t Hn IH Hu].
  - rewrite lev_refl; lia.
  - pose proof (lev_edit_front u t (edit1_front _ _ Hu) s); lia.
Qed.

Lemma lev_upper s : forall t, edits (lev s t) s t.
Proof.
  induction s as [| a s IHs]; intros t.
  - simpl; apply edits_insert_all.
  - induction t as [| b t IHt].
    + rewrite lev_nil_r; apply edits_delete_all.
    + rewrite lev_cons.
      assert (Hdel : edits (lev s (b :: t) + 1) (a :: s) (b :: t)).
      { rewrite Nat.add_1_r. apply edits_first with (u := s).
        - apply (edit_delete [] s a).
        - apply IHs. }
      assert (Hins : edits (lev (a :: s) t + 1) (a :: s) (b :: t)).
      { rewrite Nat.add_1_r. apply edits_more with (u := t).
        - exact IHt.
        - apply (edit_insert [] t b). }
      assert (Hsub : edits (lev s t + if N.eqb a b then 0 else 1) (a :: s) (b :: t)).
      { destruct (N.eqb_spec a b) as [-> | Hab].
        - rewrite Nat.add_0_r. apply edits_cons, IHs.
        - rewrite Nat.add_1_r. apply edits_first with (u := b :: s).
          + apply (edit_substitute [] s a b Hab).
          + apply edits_cons, IHs. }
      destruct (Nat.min_spec (lev s (b :: t) + 1) (lev (a :: s) t + 1)) as [[_ E1] | [_ E1]];
        rewrite E1;
        match goal with
        | |- edits (Nat.min ?x ?y) _ _ =>
            destruct (Nat.min_spec x y) as [[_ E2] | [_ E2]]; rewrite E2; assumption
        end.
Qed.

Lemma lev_edit_distance s t : edit_distance s t (lev s t).
Proof. split; [apply lev_upper | intros n; apply lev_lower]. Qed.

End EditFacts.

(* ------------------------------------------------------------------ *)
(** ** The matrix of [_levenshteinDistance] *)

Module LevFacts.
Import Lev Edit EditFacts LevInv.

Lemma upd_length {A} (l : list A) i x : length (upd l i x) = length l.
Proof.
  revert i; induction l as [| y l IH]; intros [| i]; simpl; auto.
Qed.

Lemma nth_upd {A} (l : list A) i j x d :
  i < length l ->
  nth j (upd l i x) d = if j =? i then x else nth j l d.
Proof.
  revert i j; induction l as [| y l IH]; intros i j Hi; simpl in Hi; [lia |].
  destruct i as [| i], j as [| j]; simpl; auto.
  apply IH; lia.
Qed.

Lemma mset_dims matrix rows cols r c v :
  dims matrix rows cols -> r < rows -> dims (mset matrix r c v) rows cols.
Proof.
  intros [Hlen Hrow] Hr; unfold mset; split.
  - rewrite upd_length; exact Hlen.
  - intros r' Hr'. rewrite nth_upd by lia.
    destruct (Nat.eqb_spec r' r) as [-> | _].
    + rewrite upd_length; apply Hrow; exact Hr.
    + apply Hrow; exact Hr'.
Qed.

Lemma mget_mset matrix rows cols r c v r' c' :
  dims matrix rows cols -> r < rows -> c < cols ->
  mget (mset matrix r c v) r' c' =
  if (r' =? r) && (c' =? c) then v else mget matrix r' c'.
Proof.
  intros [Hlen Hrow] Hr Hc; unfold mget, mset.
  rewrite nth_upd by lia.
  destruct (Nat.eqb_spec r' r) as [-> | _]; simpl; [| reflexivity].
  apply nth_upd. rewrite Hrow by exact Hr. exact Hc.
Qed.

(** The invariant of a loop over [seq a len]. *)
Lemma fold_seq_inv {S : Type} (f : S -> nat -> S) (P : nat -> S -> Prop) len :
  forall a s0,
    P a s0 ->
    (forall i s, a <= i < a + len -> P i s -> P (Datatypes.S i) (f s i)) ->
    P (a + len) (fold_left f (seq a len) s0).
Proof.
  induction len as [| len IH]; intros a s0 H0 Hstep; simpl.
  - rewrite Nat.add_0_r; exact H0.
  - rewrite <- Nat.add_succ_comm. apply IH.
    + apply Hstep; [lia | exact H0].
    + intros i s Hi; apply Hstep; lia.
Qed.

Lemma initMatrix_dims source target :
  dims (initMatrix source target) (length target + 1) (length source + 1).
Proof.
  unfold initMatrix; split.
  - rewrite length_map, length_seq; reflexivity.
  - intros r Hr.
    rewrite (nth_indep _ [] (map (fun colIndex => if 0 =? 0 then colIndex else 0)
                                  (seq 0 (length source + 1))))
      by (rewrite length_map, length_seq; exact Hr).
    rewrite (map_nth (fun rowIndex =>
               map (fun colIndex => if rowIndex =? 0 then colIndex else rowIndex)
                   (seq 0 (length source + 1))) (seq 0 (length target + 1)) 0 r).
    rewrite length_map, length_seq; reflexivity.
Qed.

Lemma initMatrix_get source target r c :
  r < length target + 1 -> c < length source + 1 ->
  mget (initMatrix source target) r c = if r =? 0 then c else r.
Proof.
  intros Hr Hc; unfold mget, initMatrix.
  rewrite (nth_indep _ [] (map (fun colIndex => if 0 =? 0 then colIndex else 0)
                                (seq 0 (length source + 1))))
    by (rewrite length_map, length_seq; exact Hr).
  rewrite (map_nth (fun rowIndex =>
             map (fun colIndex => if rowIndex =? 0 then colIndex else rowIndex)
                 (seq 0 (length source + 1))) (seq 0 (length target + 1)) 0 r).
  rewrite seq_nth by exact Hr; simpl.
  rewrite (nth_indep _ 0 ((fun colIndex => if r =? 0 then colIndex else r) 0))
    by (rewrite length_map, length_seq; exact Hc).
  rewrite (map_nth (fun colIndex => if r =? 0 then colIndex else r)
                   (seq 0 (length source + 1)) 0 c).
  rewrite seq_nth by exact Hc; reflexivity.
Qed.

Lemma firstn_snoc {A} (l : list A) c a :
  nth_error l c = Some a -> firstn (S c) l = firstn c l ++ [a].
Proof.
  revert c; induction l as [| x l IH]; intros [| c] H; simpl in *; try discriminate.
  - injection H as ->; reflexivity.
  - f_equal; apply IH; exact H.
Qed.

Section Table.
Variables source target : JSString.

Local Abbreviation D := (LevInv.D source target).
Local Abbreviation cells_done := (LevInv.cells_done source target).
Local Abbreviation rows_done := (LevInv.rows_done source target).

Lemma D_row0 c : c <= length source -> D 0 c = c.
Proof.
  intros Hc; unfold LevInv.D; simpl. rewrite lev_nil_r, length_rev, length_firstn; lia.
Qed.

Lemma D_col0 r : r <= length target -> D r 0 = r.
Proof.
  intros Hr; unfold LevInv.D; simpl. rewrite length_rev, length_firstn; lia.
Qed.

Lemma D_step r c :
  r < length target -> c < length source ->
  D (S r) (S c) =
  Nat.min (Nat.min (D r (S c) + 1) (D (S r) c + 1))
          (D r c + if unit_eqb (nth_error source c) (nth_error target r)
                   then 0 else 1).
Proof.
  intros Hr Hc; unfold LevInv.D.
  destruct (nth_error source c) as [a |] eqn:Ea;
    [| apply nth_error_None in Ea; lia].
  destruct (nth_error target r) as [b |] eqn:Eb;
    [| apply nth_error_None in Eb; lia].
  rewrite (firstn_snoc source c a Ea), (firstn_snoc target r b Eb).
  rewrite !rev_app_distr; cbn [rev app].
  rewrite lev_cons; cbn [unit_eqb]. lia.
Qed.

Lemma fillCell_done k j matrix :
  k < length target -> j < length source ->
  cells_done k j matrix ->
  cells_done k (S j) (fillCell source target (S k) matrix (S j)).
Proof.
  intros Hk Hj (Hd & Hrows & Hrow & Hbelow); unfold fillCell.
  simpl Nat.sub. rewrite !Nat.sub_0_r.
  rewrite (Hrows k (S j)) by lia.
  rewrite (Hrow j) by lia.
  rewrite (Hrows k j) by lia.
  rewrite <- D_step by assumption.
  assert (Hr : S k < length target + 1) by lia.
  assert (Hc : S j < length source + 1) by lia.
  split; [| split; [| split]].
  - apply mset_dims; [exact Hd | exact Hr].
  - intros r c Hrk Hcn. rewrite (mget_mset _ _ _ _ _ _ _ _ Hd Hr Hc).
    destruct (Nat.eqb_spec r (S k)); [lia |]. simpl. apply Hrows; lia.
  - intros c Hcj. rewrite (mget_mset _ _ _ _ _ _ _ _ Hd Hr Hc).
    rewrite Nat.eqb_refl; simpl.
    destruct (Nat.eqb_spec c (S j)) as [-> | Hne]; [reflexivity |].
    apply Hrow; lia.
  - intros r Hlo Hhi. rewrite (mget_mset _ _ _ _ _ _ _ _ Hd Hr Hc).
    destruct (Nat.eqb_spec r (S k)); [lia |]. simpl. apply Hbelow; lia.
Qed.

Lemma fillRow_done k matrix :
  k < length target ->
  rows_done k matrix -> rows_done (S k) (fillRow source target matrix (S k)).
Proof.
  intros Hk (Hd & Hrows & Hbelow); unfold fillRow.
  assert (Hfold : cells_done k (1 + length source - 1)
            (fold_left (fillCell source target (S k)) (seq 1 (length source)) matrix)).
  { apply (fold_seq_inv (fillCell source target (S k))
             (fun i matrix => cells_done k (i - 1) matrix)).
    - simpl. split; [exact Hd | split; [exact Hrows | split]].
      + intros c Hc. assert (c = 0) as -> by lia.
        rewrite D_col0 by lia. apply Hbelow; lia.
      + intros r Hlo Hhi. apply Hbelow; lia.
    - intros i s Hi Hs. destruct i as [| j]; [lia |].
      simpl in *. rewrite Nat.sub_0_r in *.
      apply fillCell_done; [exact Hk | lia | exact Hs]. }
  destruct Hfold as (Hd' & Hrows' & Hrow' & Hbelow').
  split; [exact Hd' | split].
  - intros r c Hr Hc.
    destruct (Nat.eq_dec r (S k)) as [-> | Hne].
    + apply Hrow'; lia.
    + apply Hrows'; lia.
  - exact Hbelow'.
Qed.

Lemma matrix_done :
  rows_done (length target)
    (fold_left (fillRow source target) (seq 1 (length target))
               (initMatrix source target)).
Proof.
  assert (H : rows_done (1 + length target - 1)
            (fold_left (fillRow source target) (seq 1 (length target))
                       (initMatrix source target))).
  { apply (fold_seq_inv (fillRow source target)
             (fun i matrix => rows_done (i - 1) matrix)).
    - simpl. split; [apply initMatrix_dims | split].
      + intros r c Hr Hc. assert (r = 0) as -> by lia.
        rewrite initMatrix_get by lia. rewrite D_row0 by exact Hc. reflexivity.
      + intros r Hlo Hhi. rewrite initMatrix_get by lia.
        destruct (Nat.eqb_spec r 0); [lia | reflexivity].
    - intros i s Hi Hs. destruct i as [| k]; [lia |].
      simpl in *. rewrite Nat.sub_0_r in *.
      apply fillRow_done; [lia | exact Hs]. }
  replace (1 + length target - 1) with (length target) in H by lia.
  exact H.
Qed.

Lemma levenshtein_lev :
  _levenshteinDistance source target = lev (rev source) (rev target).
Proof.
  unfold _levenshteinDistance.
  destruct matrix_done as (_ & Hrows & _).
  rewrite Hrows by lia. unfold LevInv.D. rewrite !firstn_all. reflexivity.
Qed.
End Table.

End LevFacts.

(** C7: [_levenshteinDistance source target] is the Levenshtein distance of
    the two strings: that many single-character insertions, deletions and
    substitutions transform [source] into [target], and no smaller number
    does.  (A character is a UTF-16 code unit, as [source[i]] is.) *)
Theorem levenshteinDistance_is_edit_distance (source target : JSString) :
  Edit.edit_distance source target (Lev._levenshteinDistance source target).
Proof.
  rewrite LevFacts.levenshtein_lev.
  apply EditFacts.edit_distance_rev, EditFacts.lev_edit_distance.
Qed.

(* ------------------------------------------------------------------ *)
(** ** Ingest *)

Module IngestFacts.
Import Coll Options Engine Search Spec.

Lemma str_eqb_eq s t : str_eqb s t = true <-> s = t.
Proof. unfold str_eqb; destruct (str_eq_dec s t); split; congruence. Qed.

Lemma str_eqb_refl s : str_eqb s s = true.
Proof. apply str_eqb_eq; reflexivity. Qed.

Lemma has_In s x : has s x = true <-> In x s.
Proof.
  unfold has; rewrite existsb_exists; split.
  - intros (y & Hy & E). apply str_eqb_eq in E; subst; exact Hy.
  - intros Hx; exists x; split; [exact Hx | apply str_eqb_refl].
Qed.

Section Keys.
Context {V : Type}.
Implicit Types m : JSMap V.

Lemma get_In_keys m k : (exists v, get m k = Some v) <-> In k (keys m).
Proof.
  induction m as [| [k' v'] m IH]; simpl.
  - split; [intros [v Hv]; discriminate | intros []].
  - destruct (str_eqb k' k) eqn:E.
    + apply str_eqb_eq in E; subst. split; [auto | intros _; eauto].
    + rewrite IH. split; [auto | intros [E' | Hin]; [| exact Hin]].
      subst. rewrite str_eqb_refl in E; discriminate.
Qed.

(** [set] keeps the keys when the key is there and appends it otherwise. *)
Lemma keys_set m k v : keys (set m k v) = add (keys m) k.
Proof.
  unfold keys, add, has.
  induction m as [| [k' v'] m IH]; [reflexivity |].
  cbn [set map fst existsb].
  destruct (str_eqb k' k) eqn:E.
  - apply str_eqb_eq in E; subst. rewrite str_eqb_refl; reflexivity.
  - assert (E' : str_eqb k k' = false).
    { destruct (str_eqb k k') eqn:E'; [| reflexivity].
      apply str_eqb_eq in E'; subst. rewrite str_eqb_refl in E; discriminate. }
    rewrite E'. cbn [orb map fst]. rewrite IH.
    destruct (existsb (str_eqb k) (map fst m)); reflexivity.
Qed.
End Keys.

Lemma add_NoDup s x : NoDup s -> NoDup (add s x).
Proof.
  intros Hs; unfold add. destruct (has s x) eqn:E; [exact Hs |].
  apply NoDup_app; [exact Hs | repeat constructor; intros [] |].
  intros y Hy [<- | []]. apply has_In in Hy; congruence.
Qed.

Lemma add_In s x y : In y (add s x) <-> In y s \/ y = x.
Proof.
  unfold add. destruct (has s x) eqn:E.
  - apply has_In in E. split; [auto | intros [Hy | ->]; assumption].
  - rewrite in_app_iff; simpl. split; intros [Hy | Hy]; auto.
    + destruct Hy as [<- | []]; auto.
Qed.

Lemma fold_add_NoDup ids : forall s, NoDup s -> NoDup (fold_left add ids s).
Proof.
  induction ids as [| x ids IH]; intros s Hs; simpl; [exact Hs |].
  apply IH, add_NoDup, Hs.
Qed.

Lemma fold_add_In ids y : forall s, In y (fold_left add ids s) <-> In y s \/ In y ids.
Proof.
  induction ids as [| x ids IH]; intros s; simpl.
  - split; [auto | intros [Hy | []]; exact Hy].
  - rewrite IH, add_In. split; intros H; intuition auto.
Qed.

(** Adding ids one by one to an empty set keeps one of each. *)
Lemma fold_add_length ids :
  length (fold_left add ids []) = length (nodup str_eq_dec ids).
Proof.
  apply Nat.le_antisymm; apply NoDup_incl_length.
  - apply fold_add_NoDup; constructor.
  - intros y Hy. apply fold_add_In in Hy. apply nodup_In.
    destruct Hy as [[] | Hy]; exact Hy.
  - apply NoDup_nodup.
  - intros y Hy. apply nodup_In in Hy. apply fold_add_In; right; exact Hy.
Qed.

(** [document[key]]: the own property first, the inherited member for the
    names of [Object.prototype], nothing otherwise. *)
Lemma lookup_own (d : Document) k v : get d k = Some v -> lookup d k = Some v.
Proof. intros E; unfold lookup; rewrite E; reflexivity. Qed.

Lemma lookup_plain (d : Document) k : inherited k = false -> lookup d k = get d k.
Proof. intros E; unfold lookup; rewrite E; destruct (get d k); reflexivity. Qed.

Lemma lookup_None (d : Document) k :
  lookup d k = None <-> get d k = None /\ inherited k = false.
Proof.
  unfold lookup. destruct (get d k) as [v |]; [| destruct (inherited k)]; split;
    try discriminate; try (intros [? ?]; discriminate); auto.
Qed.

Lemma lookup_string (d : Document) k s :
  lookup d k = Some (VString s) <-> get d k = Some (VString s).
Proof.
  unfold lookup. destruct (get d k) as [v |]; [reflexivity |].
  destruct (inherited k); split; discriminate.
Qed.

Section WithHost.
Context `{Host}.

(** Only a string is indexed, and a string is never inherited: the loop
    body sees the own properties. *)
Lemma indexField_own document id acc field :
  indexField document id acc field
  = match get document field with
    | Some (VString fieldValue) =>
        (fst acc + length fieldValue,
         fold_left (indexTerm id) (Tokenizer.fieldTerms fieldValue) (snd acc))
    | _ => acc
    end.
Proof.
  unfold indexField, lookup.
  destruct (get document field) as [[fieldValue | x | m] |]; try reflexivity.
  destruct (inherited field); reflexivity.
Qed.

Lemma addDocument_options e d : options (snd (addDocument e d)) = options e.
Proof.
  unfold addDocument. destruct (lookup d (idField (options e))); reflexivity.
Qed.

Lemma addDocument_average e d :
  averageDocumentLength (snd (addDocument e d)) = averageDocumentLength e.
Proof.
  unfold addDocument. destruct (lookup d (idField (options e))); reflexivity.
Qed.

Lemma addDocument_total e d :
  totalDocuments (snd (addDocument e d)) =
  totalDocuments e + length (completedIds (options e) [d]).
Proof.
  unfold addDocument, completedIds; simpl.
  destruct (lookup d (idField (options e))); simpl; lia.
Qed.

Lemma addDocument_keys e d :
  keys (documents (snd (addDocument e d))) =
  fold_left add (completedIds (options e) [d]) (keys (documents e)).
Proof.
  unfold addDocument, completedIds; simpl.
  destruct (lookup d (idField (options e))); simpl; [| reflexivity].
  apply keys_set.
Qed.

Lemma addDocuments_options docs : forall e,
  options (addDocuments e docs) = options e.
Proof.
  induction docs as [| d docs IH]; intros e; simpl; [reflexivity |].
  unfold addDocuments in *; simpl. rewrite IH. apply addDocument_options.
Qed.

Lemma addDocuments_average docs : forall e,
  averageDocumentLength (addDocuments e docs) = averageDocumentLength e.
Proof.
  induction docs as [| d docs IH]; intros e; simpl; [reflexivity |].
  unfold addDocuments in *; simpl. rewrite IH. apply addDocument_average.
Qed.

Lemma completedIds_cons opts d docs :
  completedIds opts (d :: docs) = completedIds opts [d] ++ completedIds opts docs.
Proof. unfold completedIds; simpl. rewrite app_nil_r; reflexivity. Qed.

Lemma addDocuments_total docs : forall e,
  totalDocuments (addDocuments e docs) =
  totalDocuments e + length (completedIds (options e) docs).
Proof.
  induction docs as [| d docs IH]; intros e.
  - simpl; lia.
  - rewrite completedIds_cons, length_app.
    unfold addDocuments in *; simpl fold_left.
    rewrite IH, addDocument_total, addDocument_options. lia.
Qed.

Lemma addDocuments_keys docs : forall e,
  keys (documents (addDocuments e docs)) =
  fold_left add (completedIds (options e) docs) (keys (documents e)).
Proof.
  induction docs as [| d docs IH]; intros e.
  - reflexivity.
  - rewrite completedIds_cons, fold_left_app.
    unfold addDocuments in *; simpl fold_left.
    rewrite IH, addDocument_keys, addDocument_options. reflexivity.
Qed.

Lemma calculateBM25_spec e documentId term :
  _calculateBM25 e documentId term =
  bm25 (averageDocumentLength e) (totalDocuments e) (posting e term)
       (stored_length e documentId) documentId.
Proof. reflexivity. Qed.
End WithHost.

End IngestFacts.

(** C9, as the code has it: when the configured id field is absent from the
    document and is not a name that every object inherits, so that
    [document[idField]] is [undefined], [addDocument] throws and the engine
    is exactly as before the call: the store, the index, the length table and
    the counter are untouched. *)
Theorem addDocument_missing_id_throws `{Host} (e : Engine.State) (document : Engine.Document) :
  Coll.get document (Options.idField (Engine.options e)) = None ->
  Engine.inherited (Options.idField (Engine.options e)) = false ->
  Engine.addDocument e document = (Engine.ThrowTypeError, e).
Proof.
  intros Hid Hplain; unfold Engine.addDocument.
  rewrite (proj2 (IngestFacts.lookup_None _ _) (conj Hid Hplain)); reflexivity.
Qed.

Lemma addDocument_missing_id_throws_witness :
  Coll.get [(lit "title", Sample.str "no path")]
           (Options.idField (Engine.options Sample.engineA)) = None
  /\ Engine.inherited (Options.idField (Engine.options Sample.engineA)) = false
  /\ Engine.addDocument (H := Sample.host) Sample.engineA
       [(lit "title", Sample.str "no path")]
     = (Engine.ThrowTypeError, Sample.engineA).
Proof.
  split; [reflexivity |]. split; [reflexivity |].
  apply addDocument_missing_id_throws; reflexivity.
Defined.

(** C9 as stated fails: with [constructor] as the id field, a document that
    does not hold the field is added all the same.  [document.constructor]
    is the function that every object inherits, so [toString()] does not
    throw: the document is stored under the text of that function, the
    counter goes up and its words are indexed. *)
Lemma addDocument_inherited_id_completes :
  Coll.get Sample.docNoId (Options.idField (Engine.options Sample.engineInherited)) = None
  /\ fst (Engine.addDocument (H := Sample.host) Sample.engineInherited Sample.docNoId)
     = Engine.Normal
  /\ Engine.totalDocuments
       (snd (Engine.addDocument (H := Sample.host) Sample.engineInherited Sample.docNoId))
     = 1
  /\ Coll.keys (Engine.documents
       (snd (Engine.addDocument (H := Sample.host) Sample.engineInherited Sample.docNoId)))
     = [lit "function Object() { [native code] }"]
  /\ Engine.invertedIndex
       (snd (Engine.addDocument (H := Sample.host) Sample.engineInherited Sample.docNoId))
     = [(lit "no", [lit "function Object() { [native code] }"]);
        (lit "id", [lit "function Object() { [native code] }"])].
Proof. repeat split; reflexivity. Qed.

(** C4: ingest never writes [averageDocumentLength]: a call of [addDocument]
    leaves the field as it was, so after any sequence of calls on a new
    engine it is still the 0 of the constructor, and that 0 is the average
    length by which [_calculateBM25] divides the document length. *)
Theorem averageDocumentLength_never_written `{Host}
    (opts : Options.RadiSenseSearchOptions) (docs : list Engine.Document) :
  (forall e d, Engine.averageDocumentLength (snd (Engine.addDocument e d))
               = Engine.averageDocumentLength e)
  /\ Engine.averageDocumentLength (Engine.addDocuments (Engine.constructor opts) docs)
     = 0%float
  /\ (forall documentId term,
        let e := Engine.addDocuments (Engine.constructor opts) docs in
        Search._calculateBM25 e documentId term
        = Spec.bm25 0%float (Engine.totalDocuments e) (Spec.posting e term)
                    (Spec.stored_length e documentId) documentId).
Proof.
  split; [apply IngestFacts.addDocument_average |].
  split; [rewrite IngestFacts.addDocuments_average; reflexivity |].
  intros documentId term e.
  rewrite IngestFacts.calculateBM25_spec.
  unfold e; rewrite IngestFacts.addDocuments_average; reflexivity.
Qed.

(** C3, as the code has it: after a sequence of [addDocument] calls on a new
    engine, [totalDocuments] is the number of calls that completed (those on
    a document for which [document[idField]] is defined, be it a property of
    the document or a member that every object inherits), and the store holds
    one entry per distinct id among them; the counter is the size of the
    store when no id was added twice, and larger otherwise. *)
Theorem totalDocuments_counts_calls `{Host}
    (opts : Options.RadiSenseSearchOptions) (docs : list Engine.Document) :
  let e := Engine.addDocuments (Engine.constructor opts) docs in
  Engine.totalDocuments e = length (Spec.completedIds opts docs)
  /\ Coll.size (Engine.documents e)
     = length (nodup str_eq_dec (Spec.completedIds opts docs)).
Proof.
  intros e; unfold e; split.
  - rewrite IngestFacts.addDocuments_total; reflexivity.
  - unfold Coll.size. rewrite <- (length_map fst).
    change (map fst ?m) with (Coll.keys m).
    rewrite IngestFacts.addDocuments_keys. simpl.
    apply IngestFacts.fold_add_length.
Qed.

(** C3 as stated fails: the same document added twice leaves one entry in
    the store and a counter of 2. *)
Lemma totalDocuments_not_store_size :
  Engine.totalDocuments Sample.engineAA = 2
  /\ Coll.size (Engine.documents Sample.engineAA) = 1.
Proof. split; reflexivity. Qed.

(* ------------------------------------------------------------------ *)
(** ** The tokenizer *)

Module TokenizerFacts.
Import Tokenizer.

(** The first piece is a prefix without separators, and it is empty when
    the string starts with a separator. *)
Lemma split_head s :
  exists first rest,
    split s = first :: rest
    /\ (exists q, s = first ++ q)
    /\ clean first
    /\ (starts_with_separator s = true -> first = []).
Proof.
  induction s as [| c s (first & rest & Es & (q & Eq) & Hclean & Hsep)].
  - exists [], []; repeat split; auto. exists []; reflexivity.
  - simpl. destruct (is_space_or_punctuation c) eqn:Ec.
    + destruct (starts_with_separator s) eqn:Ess.
      * exists first, rest. rewrite (Hsep eq_refl) in *.
        repeat split; auto. exists (c :: s); reflexivity.
      * exists [], (split s). repeat split; auto. exists (c :: s); reflexivity.
    + rewrite Es. exists (c :: first), rest. repeat split.
      * exists q; simpl; congruence.
      * unfold clean in *; simpl. rewrite Ec, Hclean; reflexivity.
      * discriminate.
Qed.

Lemma split_factor s : forall t, In t (split s) -> exists p q, s = p ++ t ++ q.
Proof.
  induction s as [| c s IH]; intros t Ht.
  - destruct Ht as [<- | []]. exists [], []; reflexivity.
  - simpl in Ht. destruct (is_space_or_punctuation c).
    + assert (Hcases : t = [] \/ In t (split s)).
      { destruct (starts_with_separator s); [right; exact Ht |].
        destruct Ht as [<- | Ht]; auto. }
      destruct Hcases as [-> | Hin].
      * exists [], (c :: s); reflexivity.
      * destruct (IH t Hin) as (p & q & ->). exists (c :: p), q; reflexivity.
    + destruct (split_head s) as (first & rest & Es & (q & Eq) & _ & _).
      rewrite Es in Ht. destruct Ht as [<- | Hin].
      * exists [], q. simpl. rewrite <- Eq; reflexivity.
      * destruct (IH t) as (p & q' & ->); [rewrite Es; right; exact Hin |].
        exists (c :: p), q'; reflexivity.
Qed.

Lemma split_pieces_clean s : forall t, In t (split s) -> clean t.
Proof.
  induction s as [| c s IH]; intros t Ht.
  - destruct Ht as [<- | []]; reflexivity.
  - simpl in Ht. destruct (is_space_or_punctuation c) eqn:Ec.
    + destruct (starts_with_separator s); [apply IH; exact Ht |].
      destruct Ht as [<- | Ht]; [reflexivity | apply IH; exact Ht].
    + destruct (split_head s) as (first & rest & Es & _ & Hclean & _).
      rewrite Es in Ht. destruct Ht as [<- | Hin].
      * unfold clean in *; simpl. rewrite Ec, Hclean; reflexivity.
      * apply IH. rewrite Es; right; exact Hin.
Qed.

Lemma split_clean t : clean t -> split t = [t].
Proof.
  unfold clean. induction t as [| c t IH]; intros Ht; [reflexivity |].
  simpl in *. apply andb_prop in Ht as [Hc Ht].
  apply negb_true_iff in Hc. rewrite Hc, (IH Ht). reflexivity.
Qed.

Lemma url_like_slash s : url_like s = true -> In 0x2F%N s.
Proof.
  induction s as [| c s IH]; simpl; [discriminate |].
  intros Hs. apply orb_prop in Hs as [Hs | Hs].
  - apply andb_prop in Hs as [Hc _]. apply N.eqb_eq in Hc; auto.
  - right; apply IH; exact Hs.
Qed.

Lemma clean_not_url t : clean t -> url_like t = false.
Proof.
  intros Ht. destruct (url_like t) eqn:E; [| reflexivity].
  apply url_like_slash in E. unfold clean in Ht.
  rewrite forallb_forall in Ht. specialize (Ht _ E). discriminate.
Qed.

(** The ASCII case mapping leaves no capital letter, so it changes no part
    of a string that it has already mapped. *)
Lemma ascii_toLowerCase_stable s p t q :
  Sample.ascii_toLowerCase s = p ++ t ++ q -> Sample.ascii_toLowerCase t = t.
Proof.
  intros E.
  assert (Hlow : Forall (fun c => (0x41 <=? c)%N && (c <=? 0x5A)%N = false)
                        (Sample.ascii_toLowerCase s)).
  { unfold Sample.ascii_toLowerCase. apply Forall_forall. intros c Hc.
    apply in_map_iff in Hc as (c0 & <- & _).
    destruct ((0x41 <=? c0)%N && (c0 <=? 0x5A)%N) eqn:E0; [| exact E0].
    apply andb_prop in E0 as [Ha Hz].
    apply N.leb_le in Ha, Hz. apply andb_false_iff; right.
    apply N.leb_gt. lia. }
  rewrite E in Hlow. apply Forall_app in Hlow as [_ Hlow].
  apply Forall_app in Hlow as [Hlow _].
  clear E. unfold Sample.ascii_toLowerCase.
  induction Hlow as [| c t Hc Ht IH]; simpl; [reflexivity |].
  rewrite Hc, IH; reflexivity.
Qed.

End TokenizerFacts.

(** C8: the tokenizer is idempotent.  For a host whose [toLowerCase] changes
    no part of a string it has already lowercased (the Unicode lower-case
    mapping is such a function), every term emitted for a field value, the
    whole URL-like value or a non-empty piece of the split, is tokenized
    again into exactly that one term. *)
Theorem tokenizer_idempotent `{Host} (fieldValue t : JSString) :
  (forall s p u q, toLowerCase s = p ++ u ++ q -> toLowerCase u = u) ->
  In t (Tokenizer.emittedTerms fieldValue) ->
  Tokenizer.emittedTerms t = [t].
Proof.
  intros Hstable Ht.
  unfold Tokenizer.emittedTerms, Tokenizer.fieldTerms in *.
  apply filter_In in Ht as [Ht Hne].
  destruct (Tokenizer.url_like (toLowerCase fieldValue)) eqn:Eurl.
  - destruct Ht as [<- | []].
    assert (E : toLowerCase (toLowerCase fieldValue) = toLowerCase fieldValue).
    { apply (Hstable fieldValue [] _ []). rewrite app_nil_r; reflexivity. }
    rewrite E, Eurl. simpl. rewrite Hne. reflexivity.
  - pose proof (TokenizerFacts.split_pieces_clean _ _ Ht) as Hclean.
    destruct (TokenizerFacts.split_factor _ _ Ht) as (p & q & Efac).
    rewrite (Hstable _ _ _ _ Efac).
    rewrite (TokenizerFacts.clean_not_url _ Hclean).
    rewrite (TokenizerFacts.split_clean _ Hclean).
    simpl. rewrite Hne. reflexivity.
Qed.

Lemma tokenizer_idempotent_witness :
  In (lit "world") (Tokenizer.emittedTerms (H := Sample.host) (lit "Hello, World!"))
  /\ Tokenizer.emittedTerms (H := Sample.host) (lit "world") = [lit "world"].
Proof.
  assert (Hin : In (lit "world")
                   (Tokenizer.emittedTerms (H := Sample.host) (lit "Hello, World!"))).
  { vm_compute. right; left; reflexivity. }
  split; [exact Hin |].
  apply (tokenizer_idempotent (H := Sample.host) (lit "Hello, World!") (lit "world")
           TokenizerFacts.ascii_toLowerCase_stable Hin).
Defined.

(* ------------------------------------------------------------------ *)
(** ** Search: the calls of the filter *)

Module TraceFacts.
Import Coll Options Engine Search Spec.

(** A loop whose body appends to the trace appends the traces of its
    iterations. *)
Lemma fold_calls {X : Type} (f : Acc -> X -> Acc) (g : X -> list JSString) :
  (forall acc x, filterCalls (f acc x) = filterCalls acc ++ g x) ->
  forall l acc, filterCalls (fold_left f l acc) = filterCalls acc ++ flat_map g l.
Proof.
  intros Hf l; induction l as [| x l IH]; intros acc; simpl.
  - rewrite app_nil_r; reflexivity.
  - rewrite IH, Hf, app_assoc; reflexivity.
Qed.

Section WithHost.
Context `{Host}.
Variables (e : State) (f : option Document -> bool).

Local Abbreviation stored := (Spec.stored e).

Lemma scoreDocument_calls field p term acc id :
  filterCalls (scoreDocument e (Some f) field p term acc id) =
  filterCalls acc ++ (if stored id then [id] else []).
Proof.
  unfold scoreDocument, Spec.stored. destruct (get (documents e) id) as [doc |].
  - destruct (negb (f (Some doc))); reflexivity.
  - rewrite app_nil_r; reflexivity.
Qed.

Lemma filter_flat_map (ids : list JSString) :
  flat_map (fun id => if stored id then [id] else []) ids = filter stored ids.
Proof.
  induction ids as [| id ids IH]; simpl; [reflexivity |].
  rewrite IH. destruct (stored id); reflexivity.
Qed.

Lemma visitEntry_calls field searchTerm acc entry :
  filterCalls (visitEntry e (Some f) field searchTerm (maxDistanceOf searchTerm) acc entry) =
  filterCalls acc ++
  (if isPrefixMatch searchTerm (fst entry)
      || isFuzzyMatch (maxDistanceOf searchTerm) searchTerm (fst entry)
   then filter stored (snd entry) else []).
Proof.
  unfold visitEntry.
  destruct (isPrefixMatch searchTerm (fst entry)
            || isFuzzyMatch (maxDistanceOf searchTerm) searchTerm (fst entry)).
  - rewrite (fold_calls _ (fun id => if stored id then [id] else [])).
    + rewrite filter_flat_map; reflexivity.
    + intros; apply scoreDocument_calls.
  - rewrite app_nil_r; reflexivity.
Qed.

Lemma visitTerm_calls field acc searchTerm :
  filterCalls (visitTerm e (Some f) field acc searchTerm) =
  filterCalls acc ++
  flat_map (fun entry : JSString * JSSet =>
              if isPrefixMatch searchTerm (fst entry)
                 || isFuzzyMatch (maxDistanceOf searchTerm) searchTerm (fst entry)
              then filter stored (snd entry) else [])
           (invertedIndex e).
Proof.
  unfold visitTerm.
  apply (fold_calls
           (visitEntry e (Some f) field searchTerm (maxDistanceOf searchTerm))).
  intros; apply visitEntry_calls.
Qed.

Lemma visitField_calls searchTerms acc field :
  filterCalls (visitField e (Some f) searchTerms acc field) =
  filterCalls acc ++ (if skipsField e field then [] else visits e searchTerms).
Proof.
  unfold visitField. destruct (skipsField e field).
  - rewrite app_nil_r; reflexivity.
  - apply (fold_calls (visitTerm e (Some f) field)).
    intros; apply visitTerm_calls.
Qed.

Lemma count_occ_flat_map {X : Type} (g : X -> list JSString) (l : list X) d :
  count_occ str_eq_dec (flat_map g l) d =
  list_sum (map (fun x => count_occ str_eq_dec (g x) d) l).
Proof.
  induction l as [| x l IH]; simpl; [reflexivity |].
  rewrite count_occ_app, IH; reflexivity.
Qed.

Lemma accumulate_calls query :
  filterCalls (accumulate e query (Some f)) =
  flat_map (fun field => if skipsField e field then []
                         else visits e (searchTermsOf query))
           (fields (options e)).
Proof.
  unfold accumulate.
  rewrite (fold_calls _ (fun field => if skipsField e field then []
                                      else visits e (searchTermsOf query))).
  - reflexivity.
  - intros; apply visitField_calls.
Qed.

Lemma accumulate_count query d :
  count_occ str_eq_dec (filterCalls (accumulate e query (Some f))) d =
  length (searchedFields e) * count_occ str_eq_dec (visits e (searchTermsOf query)) d.
Proof.
  rewrite accumulate_calls, count_occ_flat_map. unfold searchedFields.
  induction (fields (options e)) as [| field l IH]; simpl; [reflexivity |].
  rewrite IH. destruct (skipsField e field); simpl; lia.
Qed.
End WithHost.

End TraceFacts.

(** C2, as the code has it: one call of [search] with a filter calls the
    filter once for every stored document it meets, and it meets a document
    once per searched field, query term and matching index entry whose
    posting holds the id.  So the calls for a document are the searched
    fields times its occurrences in one pass over the index; on the wildcard
    path they are its occurrences in [initialResults]. *)
Theorem filter_called_once_per_visit `{Host} (e : Engine.State) (query : JSString)
    (f : option Engine.Document -> bool) (d : JSString) :
  count_occ str_eq_dec (snd (Search.search_traced e query (Some f))) d =
  if str_eqb query (lit "*") then
    count_occ str_eq_dec
      (match Options.initialResults (Engine.options e) with
       | Some ids => ids
       | None => []
       end) d
  else
    length (Spec.searchedFields e)
    * count_occ str_eq_dec (Spec.visits e (Search.searchTermsOf query)) d.
Proof.
  unfold Search.search_traced. destruct (str_eqb query (lit "*")); simpl.
  - unfold Search.wildcardCalls.
    destruct (Options.initialResults (Engine.options e)); reflexivity.
  - apply TraceFacts.accumulate_count.
Qed.

(** C2 as stated fails: with the fields [title] and [body], the query
    [hello] meets the one document in both passes and calls the filter on it
    twice. *)
Lemma filter_called_twice :
  ~ Spec.at_most_once_per_document
      (snd (Search.search_traced (H := Sample.host) Sample.engineA (lit "hello")
              Sample.acceptAll)).
Proof.
  intros Honce. specialize (Honce (lit "/a")).
  vm_compute in Honce. lia.
Qed.

(* ------------------------------------------------------------------ *)
(** ** Search: the wildcard query *)

(** C1, on the code: the wildcard path makes an entry for every listed id
    and, without a filter, drops none, so an id that is not in the store
    yields an entry whose document is [undefined].  With [/a] stored and
    [/b] not, two entries are returned. *)
Theorem wildcard_keeps_dangling_id :
  (forall (H : Host) (e : Engine.State),
     length (Search.search e (lit "*") None)
     = match Options.initialResults (Engine.options e) with
       | Some ids => length ids
       | None => 0
       end)
  /\ map (fun r => (Search.documentId r, Search.score r, Search.document r))
         (Search.search (H := Sample.host) Sample.engineA (lit "*") None)
     = [ (lit "/a", 1%float,
          Some [(lit "path", Sample.str "/a"); (lit "title", Sample.str "Hello");
                (lit "body", Sample.str "world")]);
         (lit "/b", 1%float, None) ].
Proof.
  split; [| reflexivity].
  intros H e. unfold Search.search, Search.search_traced, Search.wildcard; simpl.
  destruct (Options.initialResults (Engine.options e)) as [ids |]; [| reflexivity].
  induction ids as [| id ids IH]; simpl; [reflexivity | rewrite IH; reflexivity].
Qed.

(* ------------------------------------------------------------------ *)
(** ** Search: the score of a candidate *)

Module ScoreFacts.
Import Coll Options Engine Search Spec.

Section WithHost.
Context `{Host}.

(** The statements of the code compute the formula with the guards. *)
Lemma candidateScore_contribution e field p term id doc :
  candidateScore e field p term id doc = contribution e field p term id doc.
Proof.
  unfold candidateScore, contribution, base_score, field_boost, effective.
  rewrite IngestFacts.calculateBM25_spec.
  destruct (get (specificDocumentBoosts e) id) as [sb |]; [destruct (Num.truthy sb) |];
    (destruct (boost (options e)) as [boosts |];
     [destruct (get boosts field) as [fb |];
      [destruct (Num.truthy fb) | destruct (inherited field)] |]);
    (destruct (customBoostFactorField (options e)) as [cf |];
     [destruct (str_truthy cf) |]);
    reflexivity.
Qed.

Lemma get_without_same (m : JSMap float) id :
  get (filter (fun kv : JSString * float => negb (str_eqb (fst kv) id)) m) id = None.
Proof.
  induction m as [| [k v] m IH]; simpl; [reflexivity |].
  destruct (str_eqb k id) eqn:E; simpl; [exact IH |].
  rewrite E; exact IH.
Qed.

Lemma get_without_other (m : JSMap float) id id' :
  id' <> id ->
  get (filter (fun kv : JSString * float => negb (str_eqb (fst kv) id)) m) id' = get m id'.
Proof.
  intros Hne. induction m as [| [k v] m IH]; simpl; [reflexivity |].
  destruct (str_eqb k id) eqn:E; simpl.
  - apply IngestFacts.str_eqb_eq in E; subst k.
    destruct (str_eqb id id') eqn:E'; [| exact IH].
    apply IngestFacts.str_eqb_eq in E'; congruence.
  - destruct (str_eqb k id'); [reflexivity | exact IH].
Qed.

(** A loop is the same loop when its body is the same function. *)
Lemma fold_left_same {A B : Type} (f g : A -> B -> A) :
  (forall a b, f a b = g a b) ->
  forall l a, fold_left f l a = fold_left g l a.
Proof.
  intros Hfg l; induction l as [| b l IH]; intros a; simpl; [reflexivity |].
  rewrite Hfg; apply IH.
Qed.

Section ZeroBoost.
Variables (e : State) (id0 : JSString) (sb : float).
Hypothesis Hboost : get (specificDocumentBoosts e) id0 = Some sb.
Hypothesis Hzero : Num.is_zero sb = true.

Lemma candidateScore_without field p term id doc :
  candidateScore e field p term id doc =
  candidateScore (without_boost e id0) field p term id doc.
Proof.
  unfold candidateScore, without_boost; simpl.
  destruct (str_eq_dec id id0) as [-> | Hne].
  - rewrite Hboost, get_without_same.
    unfold Num.truthy. rewrite Hzero; reflexivity.
  - rewrite (get_without_other _ _ _ Hne); reflexivity.
Qed.

Lemma scoreDocument_without f field p term acc id :
  scoreDocument e f field p term acc id =
  scoreDocument (without_boost e id0) f field p term acc id.
Proof.
  unfold scoreDocument. change (documents (without_boost e id0)) with (documents e).
  destruct (get (documents e) id) as [doc |]; [| reflexivity].
  rewrite candidateScore_without; reflexivity.
Qed.

Lemma accumulate_without query f :
  accumulate e query f = accumulate (without_boost e id0) query f.
Proof.
  unfold accumulate. apply fold_left_same; intros acc field.
  unfold visitField. change (skipsField (without_boost e id0) field) with (skipsField e field).
  destruct (skipsField e field); [reflexivity |].
  apply fold_left_same; intros acc' searchTerm.
  unfold visitTerm. change (invertedIndex (without_boost e id0)) with (invertedIndex e).
  apply fold_left_same; intros acc'' entry.
  unfold visitEntry.
  destruct (isPrefixMatch searchTerm (fst entry)
            || isFuzzyMatch (maxDistanceOf searchTerm) searchTerm (fst entry));
    [| reflexivity].
  apply fold_left_same; intros; apply scoreDocument_without.
Qed.

Lemma search_traced_without query f :
  search_traced e query f = search_traced (without_boost e id0) query f.
Proof.
  unfold search_traced. rewrite accumulate_without. reflexivity.
Qed.
End ZeroBoost.
End WithHost.

End ScoreFacts.

(** C5, as the code has it: a stored document that the filter keeps has its
    accumulated score (taken as 0 when it is absent, zero or NaN) increased
    by [idf * freq * p], multiplied by the specific boost of the id when one
    is configured and is neither zero nor NaN, multiplied by [boost[field]]
    when it is defined and is neither zero nor NaN, plus [cb * 0.011] when
    the custom boost field has a non-empty name and the stored document has
    it with value [cb]; [idf] and [freq] are those of the BM25+ formula with
    [N = totalDocuments], the posting set of the term, the stored length of
    the document and [avg_len = averageDocumentLength]. *)
Theorem candidate_contribution `{Host} (e : Engine.State) (filterFunction : Search.Filter)
    (field : JSString) (p : float) (indexedTerm documentId : JSString)
    (acc : Search.Acc) (doc : Engine.Document) :
  Coll.get (Engine.documents e) documentId = Some doc ->
  match filterFunction with Some f => f (Some doc) | None => true end = true ->
  Search.results (Search.scoreDocument e filterFunction field p indexedTerm acc documentId)
  = Coll.set (Search.results acc) documentId
      (match Coll.get (Search.results acc) documentId with
       | Some s => Num.or_zero s
       | None => 0
       end
       + Spec.contribution e field p indexedTerm documentId doc)%float.
Proof.
  intros Hdoc Hkeep. unfold Search.scoreDocument. rewrite Hdoc.
  rewrite ScoreFacts.candidateScore_contribution.
  destruct filterFunction as [f |]; [rewrite Hkeep |]; reflexivity.
Qed.

Lemma candidate_contribution_witness :
  let doc := [(lit "path", Sample.str "/a"); (lit "title", Sample.str "Hello")] in
  let acc := {| Search.results := []; Search.filterCalls := [] |} in
  Coll.get (Engine.documents Sample.engineZeroBoost) (lit "/a") = Some doc
  /\ Search.results
       (Search.scoreDocument (H := Sample.host) Sample.engineZeroBoost None
          (lit "title") 0.375%float (lit "hello") acc (lit "/a"))
     = Coll.set (Search.results acc) (lit "/a")
         (0 + Spec.contribution (H := Sample.host) Sample.engineZeroBoost
                (lit "title") 0.375%float (lit "hello") (lit "/a") doc)%float.
Proof.
  split; [reflexivity |].
  apply (candidate_contribution (H := Sample.host) Sample.engineZeroBoost None
           (lit "title") 0.375%float (lit "hello") (lit "/a")
           {| Search.results := []; Search.filterCalls := [] |}
           [(lit "path", Sample.str "/a"); (lit "title", Sample.str "Hello")]);
    reflexivity.
Defined.

(** C5 as stated fails: with a specific boost of 0 configured for [/a], the
    code leaves the score unmultiplied, where the formula as written multiplies
    it by 0. *)
Lemma contribution_not_as_stated :
  Search.candidateScore (H := Sample.host) Sample.engineZeroBoost
    (lit "title") 0.375%float (lit "hello") (lit "/a")
    [(lit "path", Sample.str "/a"); (lit "title", Sample.str "Hello")]
  <> Spec.contribution_as_stated (H := Sample.host) Sample.engineZeroBoost
       (lit "title") 0.375%float (lit "hello") (lit "/a")
       [(lit "path", Sample.str "/a"); (lit "title", Sample.str "Hello")].
Proof.
  intros E. apply (f_equal (PrimFloat.ltb 1)) in E. vm_compute in E. discriminate.
Qed.

(** C10: when the specific boost configured for a document id is 0, [search]
    returns what it returns for the engine without that boost: the
    multiplication is skipped, and the score is not forced to 0. *)
Theorem zero_boost_is_no_boost `{Host} (e : Engine.State) (documentId : JSString)
    (boostFactor : float) (query : JSString) (filterFunction : Search.Filter) :
  Coll.get (Engine.specificDocumentBoosts e) documentId = Some boostFactor ->
  Num.is_zero boostFactor = true ->
  Search.search e query filterFunction
  = Search.search (Spec.without_boost e documentId) query filterFunction.
Proof.
  intros Hboost Hzero. unfold Search.search.
  rewrite (ScoreFacts.search_traced_without e documentId boostFactor Hboost Hzero).
  reflexivity.
Qed.

Lemma zero_boost_is_no_boost_witness :
  Coll.get (Engine.specificDocumentBoosts Sample.engineZeroBoost) (lit "/a") = Some 0%float
  /\ Search.search (H := Sample.host) Sample.engineZeroBoost (lit "hello") None
     = Search.search (H := Sample.host)
         (Spec.without_boost Sample.engineZeroBoost (lit "/a")) (lit "hello") None
  /\ map Search.documentId
         (Search.search (H := Sample.host) Sample.engineZeroBoost (lit "hello") None)
     = [lit "/a"].
Proof.
  split; [reflexivity |]. split; [| reflexivity].
  apply (zero_boost_is_no_boost (H := Sample.host) Sample.engineZeroBoost (lit "/a")
           0%float (lit "hello") None); reflexivity.
Defined.

(* ------------------------------------------------------------------ *)
(** ** Search: the returned list *)

Module ResultFacts.
Import Coll Options Engine Search.

Lemma In_firstn {A : Type} (x : A) n : forall l, In x (firstn n l) -> In x l.
Proof.
  induction n as [| n IH]; intros [| y l]; simpl; try (intros []).
  - left; assumption.
  - right; apply IH; assumption.
Qed.

(** Whatever was sorted, the list returned on the general path is cut to 34
    entries, each with a score over 2.1. *)
Lemma search_bounds `{Host} e query filterFunction :
  str_eqb query (lit "*") = false ->
  length (search e query filterFunction) <= 34
  /\ Forall (fun r => PrimFloat.ltb 2.1 (score r) = true) (search e query filterFunction).
Proof.
  intros Hq. unfold search, search_traced. rewrite Hq. cbn [fst]. split.
  - rewrite length_firstn. lia.
  - apply Forall_forall. intros r Hr.
    apply In_firstn, filter_In in Hr. apply Hr.
Qed.

(** [Array_sort] rearranges: nothing is lost or made up. *)
Lemma insert_sorted_perm {A : Type} (compare : A -> A -> float) x sorted :
  Permutation (insert_sorted compare x sorted) (x :: sorted).
Proof.
  induction sorted as [| y rest IH]; simpl; [reflexivity |].
  destruct (PrimFloat.ltb (compare x y) 0); [| reflexivity].
  rewrite IH. apply perm_swap.
Qed.

Lemma Array_sort_perm {A : Type} (compare : A -> A -> float) l :
  Permutation (Array_sort compare l) l.
Proof.
  unfold Array_sort. rewrite <- Permutation_rev.
  assert (Hgen : forall sorted,
            Permutation
              (fold_left (fun sorted x => insert_sorted compare x sorted) l sorted)
              (l ++ sorted)).
  { induction l as [| x l IH]; intros sorted; simpl; [reflexivity |].
    rewrite IH, insert_sorted_perm. symmetry. apply Permutation_middle. }
  rewrite Hgen, app_nil_r. reflexivity.
Qed.

Lemma ordered_app {A : Type} (R : A -> A -> Prop) l1 l2 :
  ForallOrdPairs R l1 -> ForallOrdPairs R l2 ->
  (forall a b, In a l1 -> In b l2 -> R a b) ->
  ForallOrdPairs R (l1 ++ l2).
Proof.
  intros H1 H2 H12; induction H1 as [| x l1 Hx Hl1 IH]; simpl; [exact H2 |].
  constructor.
  - apply Forall_app; split; [exact Hx |].
    apply Forall_forall; intros b Hb. apply H12; [left; reflexivity | exact Hb].
  - apply IH. intros a b Ha Hb. apply H12; [right; exact Ha | exact Hb].
Qed.

Lemma ordered_rev {A : Type} (R : A -> A -> Prop) l :
  ForallOrdPairs R l -> ForallOrdPairs (fun a b => R b a) (rev l).
Proof.
  induction 1 as [| x l Hx Hl IH]; simpl; [constructor |].
  apply ordered_app; [exact IH | repeat constructor |].
  intros a b Ha [<- | []]. rewrite Forall_forall in Hx.
  apply Hx, in_rev, Ha.
Qed.

Section Consistent.
Context {A : Type} (compare : A -> A -> float) (P : A -> Prop).

Local Abbreviation before := (Search.before compare).

(** What is asked of a consistent comparator, on the entries that satisfy
    [P] (for the scores: on those that are not NaN). *)
Hypothesis before_asym : forall x y, P x -> P y -> before x y -> ~ before y x.
Hypothesis before_negtrans :
  forall x y z, P x -> P y -> P z -> ~ before x y -> ~ before y z -> ~ before x z.

Lemma insert_sorted_ordered x sorted :
  P x -> Forall P sorted ->
  ForallOrdPairs (fun later earlier => ~ before later earlier) sorted ->
  ForallOrdPairs (fun later earlier => ~ before later earlier)
                 (insert_sorted compare x sorted).
Proof.
  intros Px HP Hs; induction Hs as [| y rest Hy Hrest IH]; simpl.
  - repeat constructor.
  - apply Forall_cons_iff in HP as [Py HP].
    destruct (PrimFloat.ltb (compare x y) 0) eqn:E.
    + constructor; [| apply IH; exact HP].
      apply Forall_forall. intros z Hz.
      apply (Permutation_in _ (insert_sorted_perm compare x rest)) in Hz.
      destruct Hz as [<- | Hz].
      * apply before_asym; [exact Px | exact Py | exact E].
      * rewrite Forall_forall in Hy; apply Hy; exact Hz.
    + assert (Hxy : ~ before x y) by (unfold Search.before; rewrite E; discriminate).
      constructor; [| constructor; assumption].
      constructor; [exact Hxy |].
      apply Forall_forall. intros z Hz. rewrite Forall_forall in Hy, HP.
      apply (before_negtrans x y z Px Py (HP z Hz) Hxy (Hy z Hz)).
Qed.

(** With a comparator that is consistent on the entries, no entry of the
    sorted list sorts strictly before an entry that precedes it. *)
Lemma Array_sort_ordered l :
  Forall P l ->
  ForallOrdPairs (fun earlier later => ~ before later earlier) (Array_sort compare l).
Proof.
  intros HP. unfold Array_sort.
  apply (ordered_rev (fun later earlier => ~ before later earlier)).
  assert (Hgen : forall sorted,
            Forall P sorted ->
            ForallOrdPairs (fun later earlier => ~ before later earlier) sorted ->
            Forall P (fold_left (fun sorted x => insert_sorted compare x sorted) l sorted)
            /\ ForallOrdPairs (fun later earlier => ~ before later earlier)
                 (fold_left (fun sorted x => insert_sorted compare x sorted) l sorted)).
  { induction HP as [| x l Px HP IH]; intros sorted HPs Hs; simpl; [split; assumption |].
    apply IH.
    - apply Forall_forall. intros z Hz.
      apply (Permutation_in _ (insert_sorted_perm compare x sorted)) in Hz.
      destruct Hz as [<- | Hz]; [exact Px |].
      rewrite Forall_forall in HPs; apply HPs, Hz.
    - apply insert_sorted_ordered; assumption. }
  apply Hgen; constructor.
Qed.
End Consistent.

Lemma ordered_filter {A : Type} (R : A -> A -> Prop) (keep : A -> bool) l :
  ForallOrdPairs R l -> ForallOrdPairs R (filter keep l).
Proof.
  induction 1 as [| x l Hx Hl IH]; simpl; [constructor |].
  destruct (keep x); [| exact IH].
  constructor; [| exact IH].
  apply Forall_forall. intros y Hy. apply filter_In in Hy as [Hy _].
  rewrite Forall_forall in Hx. apply Hx, Hy.
Qed.

Lemma ordered_firstn {A : Type} (R : A -> A -> Prop) n : forall l,
  ForallOrdPairs R l -> ForallOrdPairs R (firstn n l).
Proof.
  induction n as [| n IH]; intros l Hl; [constructor |].
  destruct Hl as [| x l Hx Hl]; simpl; [constructor |].
  constructor; [| apply IH; exact Hl].
  apply Forall_forall. intros y Hy. apply In_firstn in Hy.
  rewrite Forall_forall in Hx. apply Hx, Hy.
Qed.

(** When [(a, b) => b.score - a.score] is a consistent comparator on the
    entries assembled from [results] (as it is when no score is NaN), no
    entry of the returned list sorts strictly before an entry that precedes
    it. *)
Lemma search_ordered_when_consistent `{Host} e query filterFunction
    (P : SearchResult -> Prop) :
  let compare := fun a b : SearchResult => (score b - score a)%float in
  (forall x y, P x -> P y -> before compare x y -> ~ before compare y x) ->
  (forall x y z, P x -> P y -> P z ->
                 ~ before compare x y -> ~ before compare y z -> ~ before compare x z) ->
  Forall P (assemble e (results (accumulate e query filterFunction))) ->
  str_eqb query (lit "*") = false ->
  ForallOrdPairs (fun earlier later => ~ before compare later earlier)
                 (search e query filterFunction).
Proof.
  intros compare Hasym Hneg HP Hq. unfold search, search_traced. rewrite Hq. cbn [fst].
  apply ordered_firstn, ordered_filter.
  apply (Array_sort_ordered compare P Hasym Hneg _ HP).
Qed.

End ResultFacts.

(** C6, on the code: the list is sorted before the entries over 2.1 are
    selected, so a NaN score takes part in the sort and the entries around it
    are not compared.  Here [a], [x] and [c] all hold the term; [x], added
    again with an empty title, scores NaN; [a] (about 3.37) is returned
    before [c] (about 5.57). *)
Theorem search_unsorted_after_nan :
  map Search.documentId
      (Search.search (H := Sample.host) Sample.engineRank (lit "hello") None)
  = [lit "a"; lit "c"]
  /\ map (fun r => PrimFloat.ltb (Search.score r) 4)
         (Search.search (H := Sample.host) Sample.engineRank (lit "hello") None)
     = [true; false]
  /\ map (fun kv => PrimFloat.is_nan (snd kv))
         (Search.results
            (Search.accumulate (H := Sample.host) Sample.engineRank (lit "hello") None))
     = [false; true; false].
Proof. repeat split; vm_compute; reflexivity. Qed.

(* ------------------------------------------------------------------ *)
(** ** The code run on small inputs *)

Module Runs.
Import Coll Options Engine Search.

Lemma levenshtein_kitten_sitting :
  Lev._levenshteinDistance (lit "kitten") (lit "sitting") = 3.
Proof. reflexivity. Qed.

(** Scenario S4: [hallo] against the indexed [hello] is a fuzzy match, with
    a distance of 1 under the cap of 2. *)
Lemma fuzzy_hallo :
  maxDistanceOf (lit "hallo") = 2%float
  /\ Lev._levenshteinDistance (lit "hallo") (lit "hello") = 1
  /\ isPrefixMatch (lit "hallo") (lit "hello") = false
  /\ isFuzzyMatch (maxDistanceOf (lit "hallo")) (lit "hallo") (lit "hello") = true.
Proof. repeat split; reflexivity. Qed.

(** The cap on the distance, for the lengths 0 to 19 of a query term. *)
Lemma maxDistance_table :
  map (fun n => maxDistanceOf (repeat 0x61%N n)) (seq 0 20)
  = [0; 0; 1; 1; 1; 2; 2; 2; 3; 3; 4; 4; 4; 5; 5; 5; 6; 6; 6; 6]%float.
Proof. vm_compute. reflexivity. Qed.

(** A URL-like value is one term; other text is split at the class. *)
Lemma tokenizer_runs :
  Tokenizer.emittedTerms (H := Sample.host) (lit "See /Dir/Page.HTML")
  = [lit "see /dir/page.html"]
  /\ Tokenizer.emittedTerms (H := Sample.host) (lit "Hello, World!")
     = [lit "hello"; lit "world"].
Proof. split; reflexivity. Qed.

(** Scenario S1 on the code: the one document matches [hello] with a score
    under the threshold, and nothing is returned. *)
Lemma hello_below_threshold :
  search (H := Sample.host) Sample.engineA (lit "hello") None = []
  /\ map fst (results (accumulate (H := Sample.host) Sample.engineA (lit "hello") None))
     = [lit "/a"].
Proof. split; reflexivity. Qed.

(** An inherited name among the fields: [constructor in document] holds, so
    the stored projection has the member; [boost[constructor]] is defined,
    so the score of the field is multiplied by a function and is NaN, and
    with it the accumulated score of the document, which is not returned. *)
Lemma inherited_field_run :
  get (documents Sample.engineInheritedField) (lit "/a")
  = Some [(lit "path", Sample.str "/a"); (lit "title", Sample.str "Hello");
          (lit "constructor", VMember (lit "constructor"))]
  /\ PrimFloat.is_nan
       (candidateScore (H := Sample.host) Sample.engineInheritedField (lit "title")
          0.375%float (lit "hello") (lit "/a")
          [(lit "path", Sample.str "/a"); (lit "title", Sample.str "Hello");
           (lit "constructor", VMember (lit "constructor"))]) = false
  /\ PrimFloat.is_nan
       (candidateScore (H := Sample.host) Sample.engineInheritedField (lit "constructor")
          0.375%float (lit "hello") (lit "/a")
          [(lit "path", Sample.str "/a"); (lit "title", Sample.str "Hello");
           (lit "constructor", VMember (lit "constructor"))]) = true
  /\ map (fun kv => PrimFloat.is_nan (snd kv))
         (results (accumulate (H := Sample.host) Sample.engineInheritedField
                     (lit "hello") None))
     = [true]
  /\ search (H := Sample.host) Sample.engineInheritedField (lit "hello") None = [].
Proof. repeat split; reflexivity. Qed.

End Runs.

(* ================================================================== *)
(** * Further properties of the code *)

(* ------------------------------------------------------------------ *)
(** ** The edit distance as a metric *)

Module MetricFacts.
Import Edit EditFacts.

Section Chains.
Context {A : Type}.
Implicit Types s t u : list A.

Lemma edit1_sym s t : edit1 s t -> edit1 t s.
Proof.
  intros H; destruct H as [p q c | p q c | p q c c' Hc].
  - apply edit_delete.
  - apply edit_insert.
  - apply edit_substitute. intros E; apply Hc; symmetry; exact E.
Qed.

Lemma edits_sym n s t : edits n s t -> edits n t s.
Proof.
  induction 1 as [s | n s u t Hn IH Hu].
  - apply edits_done.
  - apply edits_first with (u := u); [apply edit1_sym; exact Hu | exact IH].
Qed.

Lemma edits_trans n m s t u : edits n s t -> edits m t u -> edits (n + m) s u.
Proof.
  intros Hn Hm; induction Hm as [t | m t v u Hm IH Hv].
  - rewrite Nat.add_0_r; exact Hn.
  - rewrite Nat.add_succ_r. apply edits_more with (u := v); [apply IH; exact Hn | exact Hv].
Qed.

Lemma edit1_length s t : edit1 s t -> length s <= length t + 1 /\ length t <= length s + 1.
Proof.
  intros H; destruct H as [p q c | p q c | p q c c' Hc];
    rewrite !length_app; simpl; lia.
Qed.

Lemma edits_length n s t :
  edits n s t -> length s <= length t + n /\ length t <= length s + n.
Proof.
  induction 1 as [s | n s u t Hn IH Hu]; [lia |].
  apply edit1_length in Hu. lia.
Qed.

Lemma edits_zero s t : edits 0 s t -> s = t.
Proof. intros H; inversion H; reflexivity. Qed.
End Chains.

Lemma lev_le_max s : forall t, lev s t <= Nat.max (length s) (length t).
Proof.
  induction s as [| a s IH]; intros t; [simpl; lia |].
  destruct t as [| b t]; [rewrite lev_nil_r; lia |].
  pose proof (lev_diag s t a b). specialize (IH t). simpl length. lia.
Qed.

End MetricFacts.

(** X1: [_levenshteinDistance] is a metric on strings: the distance is 0
    exactly between equal strings, it is the same in both directions, and
    going through a third string is never shorter. *)
Theorem levenshteinDistance_metric (s t u : JSString) :
  (Lev._levenshteinDistance s t = 0 <-> s = t)
  /\ Lev._levenshteinDistance s t = Lev._levenshteinDistance t s
  /\ Lev._levenshteinDistance s u
     <= Lev._levenshteinDistance s t + Lev._levenshteinDistance t u.
Proof.
  rewrite !LevFacts.levenshtein_lev.
  split; [| split].
  - split.
    + intros E. pose proof (EditFacts.lev_upper (rev s) (rev t)) as Hup.
      rewrite E in Hup. apply MetricFacts.edits_zero in Hup.
      rewrite <- (rev_involutive s), <- (rev_involutive t), Hup. reflexivity.
    + intros ->. apply EditFacts.lev_refl.
  - apply Nat.le_antisymm; apply EditFacts.lev_lower, MetricFacts.edits_sym,
      EditFacts.lev_upper.
  - apply EditFacts.lev_lower.
    apply (MetricFacts.edits_trans _ _ _ (rev t));
      apply EditFacts.lev_upper.
Qed.

(** X2: the distance lies between the difference of the two lengths and the
    larger of them; against the empty string it is the length. *)
Theorem levenshteinDistance_bounds (s t : JSString) :
  length s - length t <= Lev._levenshteinDistance s t
  /\ length t - length s <= Lev._levenshteinDistance s t
  /\ Lev._levenshteinDistance s t <= Nat.max (length s) (length t)
  /\ Lev._levenshteinDistance s [] = length s
  /\ Lev._levenshteinDistance [] t = length t.
Proof.
  rewrite !LevFacts.levenshtein_lev.
  pose proof (MetricFacts.edits_length _ _ _ (EditFacts.lev_upper (rev s) (rev t))) as Hlen.
  pose proof (MetricFacts.lev_le_max (rev s) (rev t)) as Hmax.
  rewrite !length_rev in Hlen, Hmax.
  repeat split; try lia.
  - simpl rev. rewrite EditFacts.lev_nil_r, length_rev. reflexivity.
  - simpl. apply length_rev.
Qed.

(* ------------------------------------------------------------------ *)
(** ** What the tokenizer keeps *)

Module SplitFacts.
Import Tokenizer.

Lemma concat_split s :
  concat (split s) = filter (fun c => negb (is_space_or_punctuation c)) s.
Proof.
  induction s as [| c s IH]; [reflexivity |].
  simpl. destruct (is_space_or_punctuation c); simpl.
  - destruct (starts_with_separator s); simpl; exact IH.
  - destruct (TokenizerFacts.split_head s) as (first & rest & Es & _).
    rewrite Es in *. simpl in *. rewrite IH. reflexivity.
Qed.

Lemma url_tail_spec s :
  url_tail s = true <->
  exists mid, s = mid ++ lit ".html"
              /\ forallb (fun c => negb (is_whitespace c)) mid = true.
Proof.
  split.
  - induction s as [| c s IH]; simpl.
    + intros E. vm_compute in E. discriminate.
    + intros E. apply orb_prop in E as [E | E].
      * apply IngestFacts.str_eqb_eq in E. exists []; split; [exact E | reflexivity].
      * apply andb_prop in E as [Hc E]. destruct (IH E) as (mid & -> & Hmid).
        exists (c :: mid); split; [reflexivity |]. simpl. rewrite Hc, Hmid. reflexivity.
  - intros (mid & -> & Hmid). induction mid as [| c mid IH].
    + reflexivity.
    + simpl in Hmid. apply andb_prop in Hmid as [Hc Hmid].
      change ((c :: mid) ++ lit ".html") with (c :: (mid ++ lit ".html")).
      cbn [url_tail]. rewrite Hc, (IH Hmid). apply orb_true_r.
Qed.

End SplitFacts.

(** X3: splitting at the class loses the class characters and nothing
    else: the pieces, one after the other, are the string without them; no
    piece holds one; and there is always at least one piece. *)
Theorem split_loses_only_separators (s : JSString) :
  concat (Tokenizer.split s)
  = filter (fun c => negb (Tokenizer.is_space_or_punctuation c)) s
  /\ (forall t, In t (Tokenizer.split s) -> Tokenizer.clean t)
  /\ Tokenizer.split s <> [].
Proof.
  split; [apply SplitFacts.concat_split |].
  split; [apply TokenizerFacts.split_pieces_clean |].
  destruct (TokenizerFacts.split_head s) as (first & rest & Es & _).
  rewrite Es. discriminate.
Qed.

(** X4: the path pattern [/\/[^\s]*?\.html$/] accepts exactly the strings
    that end in [.html] after a slash with no white space between the two;
    what stands before the slash is free. *)
Theorem url_like_spec (s : JSString) :
  Tokenizer.url_like s = true <->
  exists before mid,
    s = before ++ 0x2F%N :: mid ++ lit ".html"
    /\ forallb (fun c => negb (Tokenizer.is_whitespace c)) mid = true.
Proof.
  split.
  - induction s as [| c s IH]; simpl; [discriminate |].
    intros E. apply orb_prop in E as [E | E].
    + apply andb_prop in E as [Hc E]. apply N.eqb_eq in Hc; subst c.
      apply SplitFacts.url_tail_spec in E as (mid & -> & Hmid).
      exists [], mid; split; [reflexivity | exact Hmid].
    + destruct (IH E) as (before & mid & -> & Hmid).
      exists (c :: before), mid; split; [reflexivity | exact Hmid].
  - intros (before & mid & -> & Hmid).
    induction before as [| c before IH]; cbn [app Tokenizer.url_like].
    + apply orb_true_iff; left. rewrite N.eqb_refl.
      apply (proj2 (SplitFacts.url_tail_spec _)). exists mid; split; [reflexivity | exact Hmid].
    + rewrite IH. apply orb_true_r.
Qed.

(* ------------------------------------------------------------------ *)
(** ** Maps in insertion order *)

Module MapFacts.
Import Coll IngestFacts.

Section Maps.
Context {V : Type}.
Implicit Types m : JSMap V.

Lemma get_set_same m k v : get (set m k v) k = Some v.
Proof.
  induction m as [| [k' v'] m IH]; simpl.
  - rewrite str_eqb_refl; reflexivity.
  - destruct (str_eqb k' k) eqn:E; simpl; rewrite E; [reflexivity | exact IH].
Qed.

Lemma get_set_other m k v k' : k' <> k -> get (set m k v) k' = get m k'.
Proof.
  intros Hne. induction m as [| [k0 v0] m IH]; simpl.
  - destruct (str_eqb k k') eqn:E; [| reflexivity].
    apply str_eqb_eq in E; congruence.
  - destruct (str_eqb k0 k) eqn:E; simpl.
    + apply str_eqb_eq in E; subst k0.
      destruct (str_eqb k k') eqn:E'; [| reflexivity].
      apply str_eqb_eq in E'; congruence.
    + destruct (str_eqb k0 k'); [reflexivity | exact IH].
Qed.

Lemma get_In m k v : get m k = Some v -> In (k, v) m.
Proof.
  induction m as [| [k' v'] m IH]; simpl; [discriminate |].
  destruct (str_eqb k' k) eqn:E.
  - apply str_eqb_eq in E; subst. intros [= ->]. left; reflexivity.
  - intros Hg; right; apply IH, Hg.
Qed.

Lemma In_get m k v : NoDup (keys m) -> In (k, v) m -> get m k = Some v.
Proof.
  induction m as [| [k' v'] m IH]; simpl; intros Hnd Hin; [destruct Hin |].
  apply NoDup_cons_iff in Hnd as [Hk Hnd].
  destruct Hin as [[= -> ->] | Hin].
  - rewrite str_eqb_refl; reflexivity.
  - destruct (str_eqb k' k) eqn:E; [| apply IH; assumption].
    apply str_eqb_eq in E; subst k'. exfalso; apply Hk.
    apply (in_map fst) in Hin. exact Hin.
Qed.

(** An entry of the map after [set] is the one that was set or an old one. *)
Lemma In_set m k v k' v' :
  In (k', v') (set m k v) -> (k' = k /\ v' = v) \/ In (k', v') m.
Proof.
  induction m as [| [k0 v0] m IH]; simpl.
  - intros [[= <- <-] | []]; left; split; reflexivity.
  - destruct (str_eqb k0 k) eqn:E; simpl.
    + apply str_eqb_eq in E; subst k0.
      intros [[= <- <-] | Hin]; [left; split; reflexivity | right; right; exact Hin].
    + intros [E' | Hin]; [right; left; exact E' |].
      destruct (IH Hin) as [H | H]; [left; exact H | right; right; exact H].
Qed.

Lemma set_same m k v : get m k = Some v -> set m k v = m.
Proof.
  induction m as [| [k' v'] m IH]; simpl; [discriminate |].
  destruct (str_eqb k' k) eqn:E.
  - intros [= ->]; reflexivity.
  - intros Hg; rewrite (IH Hg); reflexivity.
Qed.

Lemma set_set m k v v' : set (set m k v) k v' = set m k v'.
Proof.
  induction m as [| [k0 v0] m IH]; simpl.
  - rewrite str_eqb_refl; reflexivity.
  - destruct (str_eqb k0 k) eqn:E; simpl; rewrite E; [reflexivity |].
    rewrite IH; reflexivity.
Qed.

Lemma size_set_le m k v : size (set m k v) <= S (size m).
Proof.
  unfold size. induction m as [| [k' v'] m IH]; simpl; [lia |].
  destruct (str_eqb k' k); simpl; lia.
Qed.

Lemma keys_set_NoDup m k v : NoDup (keys m) -> NoDup (keys (set m k v)).
Proof. intros Hnd. rewrite keys_set. apply add_NoDup, Hnd. Qed.

Lemma keys_set_In m k v k' : In k' (keys (set m k v)) <-> In k' (keys m) \/ k' = k.
Proof. rewrite keys_set. apply add_In. Qed.
End Maps.

(** The invariant of a loop over a list. *)
Lemma fold_left_inv {A B : Type} (f : A -> B -> A) (P : A -> Prop) l :
  (forall a b, In b l -> P a -> P (f a b)) ->
  forall a, P a -> P (fold_left f l a).
Proof.
  induction l as [| b l IH]; intros Hf a Ha; simpl; [exact Ha |].
  apply IH.
  - intros a' b' Hb'; apply Hf; right; exact Hb'.
  - apply Hf; [left; reflexivity | exact Ha].
Qed.

End MapFacts.

(* ------------------------------------------------------------------ *)
(** ** Ingest: what it keeps true *)

Module StoreFacts.
Import Coll Options Engine Invariant IngestFacts MapFacts.

Lemma entries_ok_incl stored stored' index :
  incl stored stored' -> entries_ok stored index -> entries_ok stored' index.
Proof.
  intros Hincl [Hnd Hent]; split; [exact Hnd |].
  intros term ids Hin. destruct (Hent term ids Hin) as (Ht & Hne & Hids & Hsub).
  repeat split; auto.
Qed.

Lemma postingIn_In index term id :
  In id (postingIn index term) ->
  exists ids, get index term = Some ids /\ In id ids.
Proof.
  unfold postingIn. destruct (get index term) as [ids |]; [| intros []].
  intros Hin; exists ids; split; [reflexivity | exact Hin].
Qed.

Section WithHost.
Context `{Host}.

Lemma indexTerm_ok stored id index term :
  In id stored -> entries_ok stored index -> entries_ok stored (indexTerm id index term).
Proof.
  intros Hid [Hnd Hent]. unfold indexTerm.
  destruct (str_truthy term) eqn:Et; [| split; assumption].
  split; [apply keys_set_NoDup, Hnd |].
  intros term' ids' Hin. apply In_set in Hin as [[-> ->] | Hin]; [| apply Hent, Hin].
  assert (Hold : NoDup (match get index term with Some ids => ids | None => [] end)
                 /\ forall id', In id' (match get index term with Some ids => ids | None => [] end)
                                -> In id' stored).
  { destruct (get index term) as [ids |] eqn:Eg; [| split; [constructor | intros ? []]].
    apply get_In in Eg. destruct (Hent _ _ Eg) as (_ & _ & Hids & Hsub). split; assumption. }
  destruct Hold as [Hold Hsub].
  repeat split.
  - destruct term; [discriminate | discriminate].
  - intros E. assert (Hin : In id (add (match get index term with
                                        | Some ids => ids
                                        | None => []
                                        end) id)) by (apply add_In; right; reflexivity).
    rewrite E in Hin; destruct Hin.
  - apply add_NoDup, Hold.
  - intros id' Hin. apply add_In in Hin as [Hin | ->]; [apply Hsub, Hin | exact Hid].
Qed.

Lemma indexField_ok stored document id acc field :
  In id stored -> entries_ok stored (snd acc) ->
  entries_ok stored (snd (indexField document id acc field)).
Proof.
  intros Hid Hok. rewrite IngestFacts.indexField_own.
  destruct (get document field) as [[fieldValue | x | m] |]; try exact Hok.
  simpl. apply fold_left_inv; [| exact Hok].
  intros index term _; apply indexTerm_ok; exact Hid.
Qed.

Lemma filteredDocument_keys opts document id k :
  In k (keys (filteredDocument opts document id)) ->
  k = idField opts \/ In k (fields opts).
Proof.
  unfold filteredDocument.
  match goal with
  | |- context [fold_left ?f (fields opts) []] =>
      set (picked := fold_left f (fields opts) [])
  end.
  assert (Hpicked : forall k', In k' (keys picked) -> In k' (fields opts)).
  { unfold picked. apply fold_left_inv.
    - intros acc field Hfield Hacc k'.
      destruct (lookup document field); [| apply Hacc].
      intros Hin. apply keys_set_In in Hin as [Hin | ->]; [apply Hacc, Hin | exact Hfield].
    - intros k' []. }
  revert k. apply fold_left_inv.
  - intros o kv Hkv Ho k Hin.
    apply keys_set_In in Hin as [Hin | ->]; [apply Ho, Hin |].
    right. apply Hpicked. apply (in_map fst) in Hkv. exact Hkv.
  - intros k [<- | []]. left; reflexivity.
Qed.

Lemma addDocument_index_ok e d :
  index_ok e -> index_ok (snd (addDocument e d)).
Proof.
  intros Hok. unfold addDocument.
  destruct (lookup d (idField (options e))) as [v |]; [| exact Hok].
  cbn [snd]. unfold index_ok. cbn [invertedIndex documents with_documentLengths
    with_invertedIndex with_totalDocuments with_documents].
  apply (fold_left_inv (indexField d (toString v))
           (fun acc => entries_ok (keys (set (documents e) (toString v)
                                             (filteredDocument (options e) d (toString v))))
                                  (snd acc))).
  - intros acc field _; apply indexField_ok. apply keys_set_In; right; reflexivity.
  - cbn [snd]. apply (entries_ok_incl (keys (documents e))); [| exact Hok].
    intros id Hin. apply keys_set_In; left; exact Hin.
Qed.

Lemma addDocument_store_ok e d :
  store_ok e -> store_ok (snd (addDocument e d)).
Proof.
  intros (Hnd & Hlen & Hsize & Hkeys). unfold addDocument.
  destruct (lookup d (idField (options e))) as [v |]; [| repeat split; assumption].
  cbn [snd]. unfold store_ok. cbn [invertedIndex documents documentLengths totalDocuments
    options with_documentLengths with_invertedIndex with_totalDocuments with_documents].
  split; [apply keys_set_NoDup, Hnd |].
  split; [rewrite !keys_set, Hlen; reflexivity |].
  split.
  - pose proof (size_set_le (documents e) (toString v)
                  (filteredDocument (options e) d (toString v))). lia.
  - intros id doc k Hin Hk. apply In_set in Hin as [[-> ->] | Hin].
    + apply (filteredDocument_keys _ _ _ _ Hk).
    + apply (Hkeys id doc k Hin Hk).
Qed.

Lemma constructor_ok opts : index_ok (constructor opts) /\ store_ok (constructor opts).
Proof.
  split.
  - split; [constructor | intros term ids []].
  - split; [constructor | split; [reflexivity | split]].
    + unfold size; simpl; lia.
    + intros id doc k [].
Qed.

Lemma addDocuments_ok docs : forall e,
  index_ok e /\ store_ok e ->
  index_ok (addDocuments e docs) /\ store_ok (addDocuments e docs).
Proof.
  induction docs as [| d docs IH]; intros e He; [exact He |].
  unfold addDocuments in *; simpl. apply IH. destruct He as [Hi Hs].
  split; [apply addDocument_index_ok, Hi | apply addDocument_store_ok, Hs].
Qed.
End WithHost.

End StoreFacts.

(** X5: after any sequence of [addDocument] calls on a new engine the
    inverted index is well formed: it has one entry per term, no term is
    empty, and every posting set is non-empty, holds no id twice, and holds
    only ids of documents in the store. *)
Theorem ingest_keeps_index_well_formed `{Host}
    (opts : Options.RadiSenseSearchOptions) (docs : list Engine.Document) :
  Invariant.index_ok (Engine.addDocuments (Engine.constructor opts) docs).
Proof.
  apply (StoreFacts.addDocuments_ok docs (Engine.constructor opts)).
  apply StoreFacts.constructor_ok.
Qed.

(** X6: after any sequence of [addDocument] calls on a new engine the store
    has one entry per id, the length table has exactly the ids of the store
    in the same order, the counter is at least the number of stored
    documents, and every stored document is a projection: its keys are the id
    field and configured fields only. *)
Theorem ingest_keeps_store_well_formed `{Host}
    (opts : Options.RadiSenseSearchOptions) (docs : list Engine.Document) :
  Invariant.store_ok (Engine.addDocuments (Engine.constructor opts) docs).
Proof.
  apply (StoreFacts.addDocuments_ok docs (Engine.constructor opts)).
  apply StoreFacts.constructor_ok.
Qed.

(** X7: after any sequence of [addDocument] calls on a new engine the
    document frequency of a term, the size of its posting set, is at most the
    number of stored documents, which is at most [totalDocuments]: in the
    IDF, [df] never exceeds [N]. *)
Theorem documentFrequency_at_most_totalDocuments `{Host}
    (opts : Options.RadiSenseSearchOptions) (docs : list Engine.Document)
    (term : JSString) :
  let e := Engine.addDocuments (Engine.constructor opts) docs in
  length (Spec.posting e term) <= Coll.size (Engine.documents e)
  /\ Coll.size (Engine.documents e) <= Engine.totalDocuments e.
Proof.
  intros e.
  destruct (StoreFacts.addDocuments_ok docs (Engine.constructor opts)
              (StoreFacts.constructor_ok opts)) as [[_ Hent] (_ & _ & Hsize & _)].
  fold e in Hent, Hsize. split; [| exact Hsize].
  unfold Spec.posting. destruct (Coll.get (Engine.invertedIndex e) term) as [ids |] eqn:Eg.
  - apply MapFacts.get_In in Eg. destruct (Hent _ _ Eg) as (_ & _ & Hnd & Hsub).
    unfold Coll.size. rewrite <- (length_map fst (Engine.documents e)).
    apply NoDup_incl_length; [exact Hnd | exact Hsub].
  - simpl; lia.
Qed.

(* ------------------------------------------------------------------ *)
(** ** Ingest: what a call adds *)

Module AddFacts.
Import Coll Options Engine Invariant IngestFacts MapFacts.

Lemma postingIn_indexTerm_mono id index t term :
  incl (postingIn index term) (postingIn (indexTerm id index t) term).
Proof.
  unfold indexTerm. destruct (str_truthy t); [| apply incl_refl].
  unfold postingIn. destruct (str_eq_dec term t) as [-> | Hne].
  - rewrite get_set_same. intros x Hx. apply add_In; left; exact Hx.
  - rewrite (get_set_other _ _ _ _ Hne). apply incl_refl.
Qed.

Lemma postingIn_indexTerm_here id index t :
  str_truthy t = true -> In id (postingIn (indexTerm id index t) t).
Proof.
  intros Ht. unfold indexTerm, postingIn. rewrite Ht, get_set_same.
  apply add_In; right; reflexivity.
Qed.

Lemma indexTerm_noop id index t :
  (str_truthy t = true -> In id (postingIn index t)) -> indexTerm id index t = index.
Proof.
  intros Hin. unfold indexTerm. destruct (str_truthy t); [| reflexivity].
  specialize (Hin eq_refl). unfold postingIn in Hin.
  destruct (get index t) as [ids |] eqn:Eg; [| destruct Hin].
  unfold add. apply has_In in Hin. rewrite Hin. apply set_same, Eg.
Qed.

Lemma keys_indexTerm_mono id index t :
  incl (keys index) (keys (indexTerm id index t)).
Proof.
  unfold indexTerm. destruct (str_truthy t); [| apply incl_refl].
  intros k Hk. apply keys_set_In; left; exact Hk.
Qed.

(** What holds after one iteration and is kept by every iteration holds
    after a loop that has this iteration. *)
Lemma fold_left_reach {A B : Type} (f : A -> B -> A) (Q : A -> Prop) l x :
  In x l ->
  (forall a, Q (f a x)) ->
  (forall a y, Q a -> Q (f a y)) ->
  forall a, Q (fold_left f l a).
Proof.
  intros Hx Hhere Hkeep. induction l as [| y l IH]; [destruct Hx |].
  intros a; simpl. destruct Hx as [-> | Hx].
  - apply fold_left_inv; [intros; apply Hkeep; assumption | apply Hhere].
  - apply IH, Hx.
Qed.

Section WithHost.
Context `{Host}.

Lemma indexField_mono document id acc field term :
  incl (postingIn (snd acc) term) (postingIn (snd (indexField document id acc field)) term).
Proof.
  rewrite IngestFacts.indexField_own.
  destruct (get document field) as [[fieldValue | x | m] |]; try apply incl_refl.
  cbn [snd]. apply (fold_left_inv (indexTerm id)
                      (fun index => incl (postingIn (snd acc) term) (postingIn index term))).
  - intros index t _ Hincl. eapply incl_tran; [exact Hincl | apply postingIn_indexTerm_mono].
  - apply incl_refl.
Qed.

Lemma indexField_keys_mono document id acc field :
  incl (keys (snd acc)) (keys (snd (indexField document id acc field))).
Proof.
  rewrite IngestFacts.indexField_own.
  destruct (get document field) as [[fieldValue | x | m] |]; try apply incl_refl.
  cbn [snd]. apply (fold_left_inv (indexTerm id)
                      (fun index => incl (keys (snd acc)) (keys index))).
  - intros index t _ Hincl. eapply incl_tran; [exact Hincl | apply keys_indexTerm_mono].
  - apply incl_refl.
Qed.

Lemma indexField_here document id acc field fieldValue term :
  get document field = Some (VString fieldValue) ->
  In term (Tokenizer.emittedTerms fieldValue) ->
  In id (postingIn (snd (indexField document id acc field)) term).
Proof.
  intros Hg Hterm. rewrite IngestFacts.indexField_own. rewrite Hg. cbn [snd].
  unfold Tokenizer.emittedTerms in Hterm. apply filter_In in Hterm as [Hterm Ht].
  apply (fold_left_reach (indexTerm id) (fun index => In id (postingIn index term))
           _ term Hterm).
  - intros index. apply postingIn_indexTerm_here, Ht.
  - intros index t Hin. apply (postingIn_indexTerm_mono id index t term), Hin.
Qed.

Lemma indexField_length document id acc field :
  fst (indexField document id acc field)
  = fst acc + match get document field with
              | Some (VString fieldValue) => length fieldValue
              | _ => 0
              end.
Proof.
  rewrite IngestFacts.indexField_own. destruct (get document field) as [[fieldValue | x | m] |]; simpl; lia.
Qed.

Lemma fold_indexField_length document id l : forall acc,
  fst (fold_left (indexField document id) l acc)
  = fst acc + list_sum (map (fun field => match get document field with
                                          | Some (VString fieldValue) => length fieldValue
                                          | _ => 0
                                          end) l).
Proof.
  induction l as [| field l IH]; intros acc; simpl; [lia |].
  rewrite IH, indexField_length. lia.
Qed.

Lemma fold_indexField_covers opts document id acc :
  covers opts document id (snd (fold_left (indexField document id) (fields opts) acc)).
Proof.
  intros field fieldValue term Hfield Hg Hterm.
  apply (fold_left_reach (indexField document id)
           (fun acc => In id (postingIn (snd acc) term)) _ field Hfield).
  - intros acc'. apply (indexField_here _ _ _ _ _ _ Hg Hterm).
  - intros acc' field' Hin. apply (indexField_mono document id acc' field' term), Hin.
Qed.

Lemma fold_indexField_noop opts document id index n :
  covers opts document id index ->
  snd (fold_left (indexField document id) (fields opts) (n, index)) = index.
Proof.
  intros Hcov.
  apply (fold_left_inv (indexField document id) (fun acc => snd acc = index)).
  - intros acc field Hfield Hacc. rewrite IngestFacts.indexField_own.
    destruct (get document field) as [[fieldValue | x | m] |] eqn:Hg; try exact Hacc.
    cbn [snd]. rewrite Hacc.
    apply (fold_left_inv (indexTerm id) (fun index' => index' = index)); [| reflexivity].
    intros index' term Hterm ->. apply indexTerm_noop. intros Ht.
    apply (Hcov field fieldValue term Hfield Hg).
    apply filter_In; split; assumption.
  - reflexivity.
Qed.

Lemma lastBoost_fold boosts id : forall m : JSMap float,
  get (fold_left (fun m (b : JSString * float) => set m (fst b) (snd b)) boosts m) id
  = match lastBoost boosts id with
    | Some x => Some x
    | None => get m id
    end.
Proof.
  unfold lastBoost. induction boosts as [| b boosts IH] using rev_ind; intros m.
  - reflexivity.
  - rewrite fold_left_app, rev_app_distr. simpl.
    destruct (str_eqb (fst b) id) eqn:E.
    + apply str_eqb_eq in E; subst id. simpl. apply get_set_same.
    + rewrite get_set_other; [apply IH |].
      intros E'; subst id. rewrite str_eqb_refl in E; discriminate.
Qed.
End WithHost.

End AddFacts.

(** X8: a call of [addDocument] removes nothing: every id stays in every
    posting set where it was, and every term and every stored id stays. *)
Theorem addDocument_never_removes `{Host} (e : Engine.State) (document : Engine.Document)
    (term : JSString) :
  let e' := snd (Engine.addDocument e document) in
  incl (Spec.posting e term) (Spec.posting e' term)
  /\ incl (Coll.keys (Engine.invertedIndex e)) (Coll.keys (Engine.invertedIndex e'))
  /\ incl (Coll.keys (Engine.documents e)) (Coll.keys (Engine.documents e')).
Proof.
  intros e'; unfold e', Engine.addDocument.
  destruct (Engine.lookup document (Options.idField (Engine.options e))) as [v |];
    [| repeat split; apply incl_refl].
  cbn [snd]. split; [| split].
  - change (incl (Invariant.postingIn (Engine.invertedIndex e) term)
              (Invariant.postingIn
                 (snd (fold_left (Engine.indexField document (Engine.toString v))
                         (Options.fields (Engine.options e))
                         (0, Engine.invertedIndex e))) term)).
    apply (MapFacts.fold_left_inv (Engine.indexField document (Engine.toString v))
             (fun acc => incl (Invariant.postingIn (Engine.invertedIndex e) term)
                              (Invariant.postingIn (snd acc) term))).
    + intros acc field _ Hincl.
      eapply incl_tran; [exact Hincl | apply AddFacts.indexField_mono].
    + apply incl_refl.
  - change (incl (Coll.keys (Engine.invertedIndex e))
              (Coll.keys
                 (snd (fold_left (Engine.indexField document (Engine.toString v))
                         (Options.fields (Engine.options e))
                         (0, Engine.invertedIndex e))))).
    apply (MapFacts.fold_left_inv (Engine.indexField document (Engine.toString v))
             (fun acc => incl (Coll.keys (Engine.invertedIndex e)) (Coll.keys (snd acc)))).
    + intros acc field _ Hincl.
      eapply incl_tran; [exact Hincl | apply AddFacts.indexField_keys_mono].
    + apply incl_refl.
  - intros id Hid. cbn. apply MapFacts.keys_set_In; left; exact Hid.
Qed.



(** X10: adding the same document a second time changes only the counter:
    the store, the inverted index and the length table are as the first call
    left them. *)
Theorem addDocument_again_changes_counter_only `{Host} (e : Engine.State)
    (document : Engine.Document) :
  let e1 := snd (Engine.addDocument e document) in
  let e2 := snd (Engine.addDocument e1 document) in
  Engine.documents e2 = Engine.documents e1
  /\ Engine.invertedIndex e2 = Engine.invertedIndex e1
  /\ Engine.documentLengths e2 = Engine.documentLengths e1.
Proof.
  intros e1 e2; unfold e2, e1, Engine.addDocument.
  destruct (Engine.lookup document (Options.idField (Engine.options e))) as [v |] eqn:Hid.
  - cbn. rewrite Hid. cbn.
    split; [apply MapFacts.set_set |].
    split.
    + apply AddFacts.fold_indexField_noop, AddFacts.fold_indexField_covers.
    + rewrite !AddFacts.fold_indexField_length. apply MapFacts.set_set.
  - cbn. rewrite Hid. repeat split; reflexivity.
Qed.

(** X11: [constructor] keeps, for each document id, the factor of the last
    entry of [specificDocumentBoosts] that names it, and none for an id that
    no entry names. *)
Theorem constructor_last_boost_wins (opts : Options.RadiSenseSearchOptions)
    (documentId : JSString) :
  Coll.get (Engine.specificDocumentBoosts (Engine.constructor opts)) documentId
  = match Options.specificDocumentBoosts opts with
    | Some boosts => Invariant.lastBoost boosts documentId
    | None => None
    end.
Proof.
  unfold Engine.constructor; cbn.
  destruct (Options.specificDocumentBoosts opts) as [boosts |]; [| reflexivity].
  rewrite AddFacts.lastBoost_fold.
  destruct (Invariant.lastBoost boosts documentId); reflexivity.
Qed.

(* ------------------------------------------------------------------ *)
(** ** Search: what is accumulated *)

Module RetrievalFacts.
Import Coll Options Engine Search Spec Retrieval IngestFacts MapFacts.

(** Two loops with related bodies, started on related states. *)
Lemma fold_left_rel {A A' B : Type} (R : A -> A' -> Prop)
    (f : A -> B -> A) (f' : A' -> B -> A') l :
  (forall a a' b, In b l -> R a a' -> R (f a b) (f' a' b)) ->
  forall a a', R a a' -> R (fold_left f l a) (fold_left f' l a').
Proof.
  induction l as [| b l IH]; intros Hf a a' Ha; simpl; [exact Ha |].
  apply IH.
  - intros x x' y Hy; apply Hf; right; exact Hy.
  - apply Hf; [left; reflexivity | exact Ha].
Qed.

Lemma keys_nil {V : Type} (m : JSMap V) : keys m = [] -> m = [].
Proof. destruct m; [reflexivity | discriminate]. Qed.

Section WithHost.
Context `{Host}.
Variables (e : State) (query : JSString) (filterFunction : Filter).

(** The three ways a visit of a posting id ends. *)
Lemma scoreDocument_cases field p term acc id :
  (scoreDocument e filterFunction field p term acc id = acc
   /\ get (documents e) id = None)
  \/ (exists doc, get (documents e) id = Some doc
                  /\ ask filterFunction (Some doc) = false
                  /\ results (scoreDocument e filterFunction field p term acc id)
                     = results acc)
  \/ (exists doc s, get (documents e) id = Some doc
                    /\ ask filterFunction (Some doc) = true
                    /\ results (scoreDocument e filterFunction field p term acc id)
                       = set (results acc) id s).
Proof.
  unfold scoreDocument, ask.
  destruct (get (documents e) id) as [doc |]; [| left; split; reflexivity].
  right. destruct filterFunction as [f |].
  - destruct (f (Some doc)) eqn:Ef; simpl.
    + right. exists doc. eexists. split; [reflexivity | split; [exact Ef | reflexivity]].
    + left. exists doc. split; [reflexivity | split; [exact Ef | reflexivity]].
  - right. exists doc. eexists. split; [reflexivity | split; reflexivity].
Qed.

Lemma scoreDocument_keys_mono field p term acc id :
  incl (keys (results acc))
       (keys (results (scoreDocument e filterFunction field p term acc id))).
Proof.
  destruct (scoreDocument_cases field p term acc id)
    as [[-> _] | [(doc & _ & _ & ->) | (doc & s & _ & _ & ->)]];
    try apply incl_refl.
  intros k Hk. apply keys_set_In; left; exact Hk.
Qed.

Lemma visitEntry_keys_mono field searchTerm acc entry :
  incl (keys (results acc))
       (keys (results (visitEntry e filterFunction field searchTerm
                         (maxDistanceOf searchTerm) acc entry))).
Proof.
  unfold visitEntry. destruct (isPrefixMatch _ _ || isFuzzyMatch _ _ _); [| apply incl_refl].
  apply (fold_left_inv _ (fun acc' => incl (keys (results acc)) (keys (results acc')))).
  - intros acc' id _ Hincl. eapply incl_tran; [exact Hincl | apply scoreDocument_keys_mono].
  - apply incl_refl.
Qed.

Lemma visitTerm_keys_mono field acc searchTerm :
  incl (keys (results acc))
       (keys (results (visitTerm e filterFunction field acc searchTerm))).
Proof.
  unfold visitTerm.
  apply (fold_left_inv _ (fun acc' => incl (keys (results acc)) (keys (results acc')))).
  - intros acc' entry _ Hincl. eapply incl_tran; [exact Hincl | apply visitEntry_keys_mono].
  - apply incl_refl.
Qed.

Lemma visitField_keys_mono searchTerms acc field :
  incl (keys (results acc))
       (keys (results (visitField e filterFunction searchTerms acc field))).
Proof.
  unfold visitField. destruct (skipsField e field); [apply incl_refl |].
  apply (fold_left_inv _ (fun acc' => incl (keys (results acc)) (keys (results acc')))).
  - intros acc' t _ Hincl. eapply incl_tran; [exact Hincl | apply visitTerm_keys_mono].
  - apply incl_refl.
Qed.

Local Abbreviation sound := (Retrieval.sound e query filterFunction).

Lemma visitField_sound acc field :
  sound acc -> sound (visitField e filterFunction (searchTermsOf query) acc field).
Proof.
  intros Hacc. unfold visitField. destruct (skipsField e field); [exact Hacc |].
  apply fold_left_inv; [| exact Hacc]. clear acc Hacc.
  intros acc searchTerm Hterm Hacc. unfold visitTerm.
  apply fold_left_inv; [| exact Hacc]. clear acc Hacc.
  intros acc entry Hentry Hacc. unfold visitEntry.
  destruct (isPrefixMatch searchTerm (fst entry)
            || isFuzzyMatch (maxDistanceOf searchTerm) searchTerm (fst entry)) eqn:Em;
    [| exact Hacc].
  apply fold_left_inv; [| exact Hacc]. clear acc Hacc.
  intros acc id Hid [Hnd Hcand].
  destruct (scoreDocument_cases field
              (penaltyFactor (maxDistanceOf searchTerm) searchTerm (fst entry))
              (fst entry) acc id)
    as [[-> _] | [(doc & _ & _ & E) | (doc & s & Hdoc & Hask & E)]];
    unfold Retrieval.sound; rewrite ?E; try (split; assumption).
  split; [apply keys_set_NoDup, Hnd |].
  intros id' Hin. apply keys_set_In in Hin as [Hin | ->]; [apply Hcand, Hin |].
  exists doc, searchTerm, entry. repeat split; assumption.
Qed.

Lemma accumulate_sound : sound (accumulate e query filterFunction).
Proof.
  unfold accumulate. apply fold_left_inv.
  - intros acc field _; apply visitField_sound.
  - split; [constructor | intros id []].
Qed.

Lemma accumulate_complete id field :
  In field (fields (options e)) -> skipsField e field = false ->
  candidate e query filterFunction id ->
  In id (keys (results (accumulate e query filterFunction))).
Proof.
  intros Hfield Hskip (doc & searchTerm & entry & Hdoc & Hask & Hterm & Hentry & Hm & Hid).
  unfold accumulate.
  apply (AddFacts.fold_left_reach _ (fun acc => In id (keys (results acc))) _ field Hfield);
    [| intros acc f' Hin; apply (visitField_keys_mono _ acc f'), Hin].
  intros acc. unfold visitField. rewrite Hskip.
  apply (AddFacts.fold_left_reach _ (fun acc => In id (keys (results acc))) _ searchTerm Hterm);
    [| intros acc' t Hin; apply (visitTerm_keys_mono field acc' t), Hin].
  intros acc'. unfold visitTerm.
  apply (AddFacts.fold_left_reach _ (fun acc => In id (keys (results acc))) _ entry Hentry);
    [| intros acc'' en Hin; apply (visitEntry_keys_mono field searchTerm acc'' en), Hin].
  intros acc''. unfold visitEntry. unfold matches in Hm. rewrite Hm.
  apply (AddFacts.fold_left_reach _ (fun acc => In id (keys (results acc))) _ id Hid);
    [| intros a y Hin; apply (scoreDocument_keys_mono _ _ _ a y), Hin].
  intros a.
  destruct (scoreDocument_cases field
              (penaltyFactor (maxDistanceOf searchTerm) searchTerm (fst entry))
              (fst entry) a id)
    as [[_ E] | [(doc' & E & Hask' & _) | (doc' & s & _ & _ & ->)]].
  - congruence.
  - rewrite Hdoc in E; injection E as <-. congruence.
  - apply keys_set_In; right; reflexivity.
Qed.

Lemma accumulate_unsearched :
  searchedFields e = [] ->
  results (accumulate e query filterFunction) = [].
Proof.
  intros Hnone. unfold accumulate.
  apply (fold_left_inv _ (fun acc => results acc = [])); [| reflexivity].
  intros acc field Hfield Hacc. unfold visitField.
  destruct (skipsField e field) eqn:Es; [exact Hacc |].
  assert (Hin : In field (searchedFields e)).
  { apply filter_In; split; [exact Hfield | rewrite Es; reflexivity]. }
  rewrite Hnone in Hin; destruct Hin.
Qed.

Lemma searchedFields_In field :
  In field (searchedFields e) <-> In field (fields (options e)) /\ skipsField e field = false.
Proof.
  unfold searchedFields. rewrite filter_In, negb_true_iff. reflexivity.
Qed.
End WithHost.

Lemma NoDup_map_filter {A B : Type} (g : A -> B) (keep : A -> bool) l :
  NoDup (map g l) -> NoDup (map g (filter keep l)).
Proof.
  induction l as [| x l IH]; simpl; intros Hnd; [constructor |].
  apply NoDup_cons_iff in Hnd as [Hx Hnd].
  destruct (keep x); simpl; [| apply IH, Hnd].
  constructor; [| apply IH, Hnd].
  intros Hin. apply Hx. apply in_map_iff in Hin as (y & Ey & Hy).
  apply filter_In in Hy as [Hy _]. apply in_map_iff. exists y; split; assumption.
Qed.

Lemma NoDup_map_firstn {A B : Type} (g : A -> B) n : forall l,
  NoDup (map g l) -> NoDup (map g (firstn n l)).
Proof.
  induction n as [| n IH]; intros [| x l] Hnd; simpl; try constructor.
  - simpl in Hnd. apply NoDup_cons_iff in Hnd as [Hx Hnd].
    intros Hin. apply Hx. apply in_map_iff in Hin as (y & Ey & Hy).
    apply ResultFacts.In_firstn in Hy. apply in_map_iff. exists y; split; assumption.
  - simpl in Hnd. apply NoDup_cons_iff in Hnd as [_ Hnd]. apply IH, Hnd.
Qed.

End RetrievalFacts.

(** X12: what the three loops of [search] accumulate.  A document id gets a
    score in [results] exactly when some configured field is searched (is
    not the custom boost field) and the id is a candidate: an index entry
    whose term is a prefix or fuzzy match of a query term has it in its
    posting set, and its document is stored and kept by the filter. *)
Theorem accumulated_ids `{Host} (e : Engine.State) (query : JSString)
    (filterFunction : Search.Filter) (id : JSString) :
  In id (Coll.keys (Search.results (Search.accumulate e query filterFunction)))
  <-> Spec.searchedFields e <> [] /\ Retrieval.candidate e query filterFunction id.
Proof.
  split.
  - intros Hin. split.
    + intros Hnone.
      rewrite (RetrievalFacts.accumulate_unsearched e query filterFunction Hnone) in Hin.
      destruct Hin.
    + apply (RetrievalFacts.accumulate_sound e query filterFunction), Hin.
  - intros [Hsome Hcand].
    destruct (Spec.searchedFields e) as [| field rest] eqn:Ef; [congruence |].
    assert (Hfield : In field (Spec.searchedFields e)) by (rewrite Ef; left; reflexivity).
    apply RetrievalFacts.searchedFields_In in Hfield as [Hfield Hskip].
    apply (RetrievalFacts.accumulate_complete e query filterFunction id field); assumption.
Qed.

(* ------------------------------------------------------------------ *)
(** ** Search: what is returned *)

Module ReturnFacts.
Import Coll Options Engine Search Spec Retrieval IngestFacts MapFacts RetrievalFacts.

Section WithHost.
Context `{Host}.
Variable e : State.

(** A returned entry of the general path was assembled from [results]. *)
Lemma search_In_assemble query filterFunction r :
  str_eqb query (lit "*") = false ->
  In r (search e query filterFunction) ->
  exists entry, In entry (results (accumulate e query filterFunction))
                /\ r = {| documentId := fst entry;
                          score := snd entry;
                          document := get (documents e) (fst entry);
                          textMatch := Some (snd entry) |}.
Proof.
  intros Hq Hr. unfold search, search_traced in Hr. rewrite Hq in Hr. cbn [fst] in Hr.
  apply ResultFacts.In_firstn, filter_In in Hr. destruct Hr as [Hr _].
  apply (Permutation_in _ (ResultFacts.Array_sort_perm _ _)) in Hr.
  unfold assemble in Hr. apply in_map_iff in Hr as (entry & <- & Hentry).
  exists entry; split; [exact Hentry | reflexivity].
Qed.

Lemma search_ids_NoDup query filterFunction :
  str_eqb query (lit "*") = false ->
  NoDup (map documentId (search e query filterFunction)).
Proof.
  intros Hq. unfold search, search_traced. rewrite Hq. cbn [fst].
  apply NoDup_map_firstn, NoDup_map_filter.
  apply (Permutation_NoDup
           (Permutation_map documentId
              (Permutation_sym (ResultFacts.Array_sort_perm _ _)))).
  unfold assemble. rewrite map_map. cbn [documentId].
  apply (accumulate_sound e query filterFunction).
Qed.

Lemma scoreDocument_results filterFunction field p term acc id :
  results (scoreDocument e filterFunction field p term acc id)
  = match get (documents e) id with
    | None => results acc
    | Some doc =>
        if ask filterFunction (Some doc) then
          set (results acc) id
              (match get (results acc) id with
               | Some s => Num.or_zero s
               | None => 0
               end + candidateScore e field p term id doc)%float
        else results acc
    end.
Proof.
  unfold scoreDocument, ask. destruct (get (documents e) id) as [doc |]; [| reflexivity].
  destruct filterFunction as [f |]; [destruct (f (Some doc)) |]; reflexivity.
Qed.

Lemma accumulate_same_answers query f g :
  (forall id, ask f (get (documents e) id) = ask g (get (documents e) id)) ->
  results (accumulate e query f) = results (accumulate e query g).
Proof.
  intros Hfg. unfold accumulate.
  apply (fold_left_rel (fun a a' => results a = results a')); [| reflexivity].
  intros a a' field _ Ha. unfold visitField. destruct (skipsField e field); [exact Ha |].
  apply (fold_left_rel (fun a a' => results a = results a')); [| exact Ha].
  clear a a' Ha. intros a a' searchTerm _ Ha. unfold visitTerm.
  apply (fold_left_rel (fun a a' => results a = results a')); [| exact Ha].
  clear a a' Ha. intros a a' entry _ Ha. unfold visitEntry.
  destruct (isPrefixMatch _ _ || isFuzzyMatch _ _ _); [| exact Ha].
  apply (fold_left_rel (fun a a' => results a = results a')); [| exact Ha].
  clear a a' Ha. intros a a' id _ Ha.
  rewrite !scoreDocument_results, Ha.
  specialize (Hfg id). destruct (get (documents e) id) as [doc |]; [| reflexivity].
  rewrite Hfg. reflexivity.
Qed.

Lemma searchTerms_all_separators s :
  forallb Tokenizer.is_space_or_punctuation s = true ->
  filter (fun term => negb (length term =? 0)) (Tokenizer.split s) = [].
Proof.
  induction s as [| c s IH]; [reflexivity |].
  simpl. intros Hs. apply andb_prop in Hs as [Hc Hs]. rewrite Hc.
  destruct (Tokenizer.starts_with_separator s); simpl; apply IH, Hs.
Qed.

Lemma no_candidate_no_result query filterFunction :
  str_eqb query (lit "*") = false ->
  (forall id, ~ candidate e query filterFunction id) ->
  search e query filterFunction = [].
Proof.
  intros Hq Hnone. unfold search, search_traced. rewrite Hq. cbn [fst].
  assert (E : results (accumulate e query filterFunction) = []).
  { apply keys_nil.
    destruct (keys (results (accumulate e query filterFunction))) as [| id l] eqn:Ek;
      [reflexivity |].
    exfalso. apply (Hnone id).
    apply (accumulate_sound e query filterFunction). rewrite Ek; left; reflexivity. }
  rewrite E. reflexivity.
Qed.
End WithHost.

End ReturnFacts.

(** X13: on a query other than the wildcard, the returned entries have
    pairwise distinct ids, so there are at most as many as stored documents;
    and each entry carries, as [document], the stored document of its id,
    which the filter keeps and which the query meets, with [textMatch] equal
    to [score]. *)
Theorem returned_entries `{Host} (e : Engine.State) (query : JSString)
    (filterFunction : Search.Filter) :
  str_eqb query (lit "*") = false ->
  NoDup (map Search.documentId (Search.search e query filterFunction))
  /\ length (Search.search e query filterFunction) <= Coll.size (Engine.documents e)
  /\ forall r, In r (Search.search e query filterFunction) ->
       exists doc,
         Search.document r = Some doc
         /\ Coll.get (Engine.documents e) (Search.documentId r) = Some doc
         /\ Retrieval.ask filterFunction (Some doc) = true
         /\ Search.textMatch r = Some (Search.score r)
         /\ Retrieval.candidate e query filterFunction (Search.documentId r).
Proof.
  intros Hq.
  pose proof (ReturnFacts.search_ids_NoDup e query filterFunction Hq) as Hnd.
  assert (Hall : forall r, In r (Search.search e query filterFunction) ->
            exists doc,
              Search.document r = Some doc
              /\ Coll.get (Engine.documents e) (Search.documentId r) = Some doc
              /\ Retrieval.ask filterFunction (Some doc) = true
              /\ Search.textMatch r = Some (Search.score r)
              /\ Retrieval.candidate e query filterFunction (Search.documentId r)).
  { intros r Hr.
    destruct (ReturnFacts.search_In_assemble e query filterFunction r Hq Hr)
      as (entry & Hentry & ->). cbn.
    assert (Hcand : Retrieval.candidate e query filterFunction (fst entry)).
    { apply (RetrievalFacts.accumulate_sound e query filterFunction).
      apply (in_map fst) in Hentry. exact Hentry. }
    pose proof Hcand as (doc & searchTerm & en & Hdoc & Hask & _).
    exists doc. repeat split; assumption. }
  split; [exact Hnd |]. split; [| exact Hall].
  rewrite <- (length_map Search.documentId).
  unfold Coll.size. rewrite <- (length_map fst (Engine.documents e)).
  apply NoDup_incl_length; [exact Hnd |].
  intros id Hid. apply in_map_iff in Hid as (r & <- & Hr).
  destruct (Hall r Hr) as (doc & _ & Hdoc & _).
  apply IngestFacts.get_In_keys. exists doc; exact Hdoc.
Qed.

Lemma returned_entries_witness :
  str_eqb (lit "hello") (lit "*") = false
  /\ NoDup (map Search.documentId
              (Search.search (H := Sample.host) Sample.engineZeroBoost (lit "hello") None))
  /\ length (Search.search (H := Sample.host) Sample.engineZeroBoost (lit "hello") None) = 1.
Proof.
  split; [reflexivity |].
  split; [| reflexivity].
  apply (returned_entries (H := Sample.host) Sample.engineZeroBoost (lit "hello") None).
  reflexivity.
Defined.

(** X14: [search] consults the filter on what the store answers for an id
    and on nothing else: two filters that give the same answer there (no
    filter counting as one that answers [true]) give the same list, on the
    wildcard query as on any other.  A filter that accepts everything is the
    same as no filter. *)
Theorem search_depends_on_filter_answers `{Host} (e : Engine.State) (query : JSString)
    (f g : Search.Filter) :
  (forall id, Retrieval.ask f (Coll.get (Engine.documents e) id)
              = Retrieval.ask g (Coll.get (Engine.documents e) id)) ->
  Search.search e query f = Search.search e query g.
Proof.
  intros Hfg. unfold Search.search, Search.search_traced.
  destruct (str_eqb query (lit "*")); cbn [fst].
  - unfold Search.wildcard.
    destruct (Options.initialResults (Engine.options e)) as [ids |]; [| reflexivity].
    apply filter_ext_in. intros r Hr.
    apply in_map_iff in Hr as (id & <- & _). cbn. apply (Hfg id).
  - rewrite (ReturnFacts.accumulate_same_answers e query f g Hfg). reflexivity.
Qed.

Lemma search_depends_on_filter_answers_witness :
  Search.search (H := Sample.host) Sample.engineZeroBoost (lit "hello") Sample.acceptAll
  = Search.search (H := Sample.host) Sample.engineZeroBoost (lit "hello") None.
Proof.
  apply (search_depends_on_filter_answers (H := Sample.host) Sample.engineZeroBoost
           (lit "hello") Sample.acceptAll None).
  intros id; reflexivity.
Defined.

(** X15: a query other than the wildcard returns the empty list when the
    index has no term (as on a new engine) and when the lowercased query
    holds nothing but space and punctuation (as the empty query does). *)
Theorem search_without_terms `{Host} (e : Engine.State) (query : JSString)
    (filterFunction : Search.Filter) :
  str_eqb query (lit "*") = false ->
  Engine.invertedIndex e = []
  \/ forallb Tokenizer.is_space_or_punctuation (toLowerCase query) = true ->
  Search.search e query filterFunction = [].
Proof.
  intros Hq Hempty. apply ReturnFacts.no_candidate_no_result; [exact Hq |].
  intros id (doc & searchTerm & entry & _ & _ & Hterm & Hentry & _).
  destruct Hempty as [Hindex | Hsep].
  - rewrite Hindex in Hentry; destruct Hentry.
  - unfold Search.searchTermsOf in Hterm.
    rewrite (ReturnFacts.searchTerms_all_separators _ Hsep) in Hterm. destruct Hterm.
Qed.

Lemma search_without_terms_witness :
  forallb Tokenizer.is_space_or_punctuation
          (toLowerCase (Host := Sample.host) (lit " - ")) = true
  /\ Search.search (H := Sample.host) Sample.engineA (lit " - ") None = [].
Proof.
  split; [reflexivity |].
  apply (search_without_terms (H := Sample.host) Sample.engineA (lit " - ") None).
  - reflexivity.
  - right; reflexivity.
Defined.

(* ------------------------------------------------------------------ *)
(** ** The custom boost field and the stored projection *)

Module CustomFacts.
Import Coll Options Engine Search Invariant IngestFacts MapFacts RetrievalFacts.

Section WithHost.
Context `{Host}.
Variables (e : State) (customField : JSString).
Hypothesis Hcustom : customBoostFactorField (options e) = Some customField.
Hypothesis Hplain : Engine.inherited customField = false.
Hypothesis Hid : customField <> idField (options e).
Hypothesis Hfields : ~ In customField (fields (options e)).
Hypothesis Hstore : store_ok e.

Lemma stored_without_custom id doc :
  get (documents e) id = Some doc -> get doc customField = None.
Proof.
  intros Hdoc. destruct (get doc customField) as [v |] eqn:Eg; [| reflexivity].
  exfalso. destruct Hstore as (_ & _ & _ & Hkeys).
  destruct (Hkeys id doc customField (get_In _ _ _ Hdoc)) as [E | Hin].
  - apply get_In_keys. exists v; exact Eg.
  - apply Hid, E.
  - apply Hfields, Hin.
Qed.

Lemma candidateScore_without_custom field p term id doc :
  get (documents e) id = Some doc ->
  candidateScore e field p term id doc
  = candidateScore (without_customBoostFactorField e) field p term id doc.
Proof.
  intros Hdoc.
  assert (Hnone : lookup doc customField = None).
  { rewrite (lookup_plain _ _ Hplain). apply (stored_without_custom id doc Hdoc). }
  unfold candidateScore. cbn -[lookup]. rewrite Hcustom, Hnone.
  destruct (str_truthy customField); reflexivity.
Qed.

Lemma accumulate_without_custom query filterFunction :
  accumulate e query filterFunction
  = accumulate (without_customBoostFactorField e) query filterFunction.
Proof.
  unfold accumulate. cbn [options without_customBoostFactorField fields].
  apply (fold_left_rel eq); [| reflexivity].
  intros a a' field Hfield <-. unfold visitField.
  assert (Hskip : skipsField e field = false).
  { unfold skipsField. rewrite Hcustom.
    destruct (str_eqb field customField) eqn:E; [| reflexivity].
    apply str_eqb_eq in E; subst field. contradiction. }
  rewrite Hskip.
  change (skipsField (without_customBoostFactorField e) field) with false. cbv iota.
  apply (fold_left_rel eq); [| reflexivity].
  intros b b' searchTerm _ <-. unfold visitTerm.
  change (invertedIndex (without_customBoostFactorField e)) with (invertedIndex e).
  apply (fold_left_rel eq); [| reflexivity].
  intros c c' entry _ <-. unfold visitEntry.
  destruct (isPrefixMatch _ _ || isFuzzyMatch _ _ _); [| reflexivity].
  apply (fold_left_rel eq); [| reflexivity].
  intros d d' id _ <-. unfold scoreDocument.
  change (documents (without_customBoostFactorField e)) with (documents e).
  destruct (get (documents e) id) as [doc |] eqn:Hdoc; [| reflexivity].
  rewrite (candidateScore_without_custom _ _ _ _ _ Hdoc). reflexivity.
Qed.
End WithHost.

End CustomFacts.

(** X16: a custom boost field that is neither the id field nor one of the
    configured fields (nor a name that every object inherits) has no
    effect.  After any sequence of [addDocument] calls no stored document
    has the field, since the store keeps the projection on the id field and
    the configured fields, so [search] returns what it returns with no
    custom boost field configured.  The options of the search worker are
    such: [pageRank] is not among its fields. *)
Theorem customBoostFactorField_outside_fields `{Host}
    (opts : Options.RadiSenseSearchOptions) (docs : list Engine.Document)
    (customField query : JSString) (filterFunction : Search.Filter) :
  Options.customBoostFactorField opts = Some customField ->
  Invariant.inherited customField = false ->
  customField <> Options.idField opts ->
  ~ In customField (Options.fields opts) ->
  let e := Engine.addDocuments (Engine.constructor opts) docs in
  (forall id doc, Coll.get (Engine.documents e) id = Some doc ->
                  Coll.get doc customField = None)
  /\ Search.search e query filterFunction
     = Search.search (Invariant.without_customBoostFactorField e) query filterFunction.
Proof.
  intros Hcustom Hplain Hid Hfields e.
  assert (Hopts : Engine.options e = opts).
  { unfold e. rewrite IngestFacts.addDocuments_options. reflexivity. }
  assert (Hstore : Invariant.store_ok e).
  { apply (StoreFacts.addDocuments_ok docs (Engine.constructor opts)),
      StoreFacts.constructor_ok. }
  rewrite <- Hopts in Hcustom, Hid, Hfields.
  split.
  - apply (CustomFacts.stored_without_custom e customField Hid Hfields Hstore).
  - unfold Search.search, Search.search_traced.
    rewrite (CustomFacts.accumulate_without_custom e customField Hcustom Hplain Hid Hfields
               Hstore).
    reflexivity.
Qed.

Lemma customBoostFactorField_outside_fields_witness :
  let doc := [(lit "path", Sample.str "/1/privat/bolan.html");
              (lit "title", Sample.str "Bolan");
              (lit "pageRank", Engine.VNumber 7)] in
  let e := Engine.addDocuments (H := Sample.host)
             (Engine.constructor Worker.createOptions) [doc] in
  Options.customBoostFactorField Worker.createOptions = Some (lit "pageRank")
  /\ Invariant.inherited (lit "pageRank") = false
  /\ Coll.get (Engine.documents e) (lit "/1/privat/bolan.html")
     = Some [(lit "path", Sample.str "/1/privat/bolan.html");
             (lit "title", Sample.str "Bolan")]
  /\ Search.search (H := Sample.host) e (lit "bolan") None
     = Search.search (H := Sample.host)
         (Invariant.without_customBoostFactorField e) (lit "bolan") None.
Proof.
  split; [reflexivity |]. split; [reflexivity |]. split; [reflexivity |].
  apply (customBoostFactorField_outside_fields (H := Sample.host) Worker.createOptions
           [[(lit "path", Sample.str "/1/privat/bolan.html");
             (lit "title", Sample.str "Bolan");
             (lit "pageRank", Engine.VNumber 7)]]
           (lit "pageRank") (lit "bolan") None).
  - reflexivity.
  - reflexivity.
  - discriminate.
  - simpl. intros [E | [E | [E | [E | [E | []]]]]]; discriminate.
Defined.

(* ------------------------------------------------------------------ *)
(** ** Ingest: what the index and the store hold *)

Module ContentFacts.
Import Coll Options Engine Invariant IngestFacts MapFacts AddFacts.

Lemma postingIn_indexTerm_inv id index t term id' :
  In id' (postingIn (indexTerm id index t) term) ->
  In id' (postingIn index term) \/ (id' = id /\ term = t /\ str_truthy t = true).
Proof.
  unfold indexTerm. destruct (str_truthy t) eqn:Et; [| left; assumption].
  unfold postingIn. destruct (str_eq_dec term t) as [-> | Hne].
  - rewrite get_set_same. intros Hin. apply add_In in Hin as [Hin | ->].
    + left; exact Hin.
    + right; repeat split; reflexivity.
  - rewrite (get_set_other _ _ _ _ Hne). left; assumption.
Qed.

Section WithHost.
Context `{Host}.

Lemma fold_indexField_inv opts document id index0 term id' acc0 :
  snd acc0 = index0 ->
  In id' (postingIn (snd (fold_left (indexField document id) (fields opts) acc0)) term) ->
  In id' (postingIn index0 term) \/ (id' = id /\ emits opts document term).
Proof.
  intros E0.
  apply (fold_left_inv (indexField document id)
           (fun acc => In id' (postingIn (snd acc) term) ->
                       In id' (postingIn index0 term)
                       \/ (id' = id /\ emits opts document term))).
  - intros acc field Hfield Hacc. rewrite IngestFacts.indexField_own.
    destruct (get document field) as [[fieldValue | x | m] |] eqn:Hg; try exact Hacc.
    cbn [snd].
    apply (fold_left_inv (indexTerm id)
             (fun index => In id' (postingIn index term) ->
                           In id' (postingIn index0 term)
                           \/ (id' = id /\ emits opts document term))); [| exact Hacc].
    intros index t Ht Hindex Hin.
    apply postingIn_indexTerm_inv in Hin as [Hin | (-> & -> & Htruthy)];
      [apply Hindex, Hin |].
    right; split; [reflexivity |].
    exists field, fieldValue. repeat split; try assumption.
    apply filter_In; split; assumption.
  - rewrite E0. intros Hin; left; exact Hin.
Qed.

(** What one call adds to a posting set. *)
Lemma addDocument_posting_inv e d term id :
  In id (Spec.posting (snd (addDocument e d)) term) ->
  In id (Spec.posting e term) \/ (hasId (options e) d id /\ emits (options e) d term).
Proof.
  unfold addDocument.
  destruct (lookup d (idField (options e))) as [v |] eqn:Hid; [| left; assumption].
  cbn [snd]. intros Hin.
  destruct (fold_indexField_inv (options e) d (toString v) (invertedIndex e) term id
              (0, invertedIndex e) eq_refl Hin) as [Hold | [-> Hem]].
  - left; exact Hold.
  - right; split; [exists v; split; [exact Hid | reflexivity] | exact Hem].
Qed.

Lemma addDocument_posting_here e d term id :
  hasId (options e) d id -> emits (options e) d term ->
  In id (Spec.posting (snd (addDocument e d)) term).
Proof.
  intros (v & Hid & <-) (field & fieldValue & Hfield & Hg & Hterm).
  unfold addDocument. rewrite Hid. cbn [snd].
  apply (fold_indexField_covers (options e) d (toString v) (0, invertedIndex e)
           field fieldValue term Hfield Hg Hterm).
Qed.

Lemma addDocument_posting_mono e d term :
  incl (Spec.posting e term) (Spec.posting (snd (addDocument e d)) term).
Proof.
  unfold addDocument. destruct (lookup d (idField (options e))) as [v |]; [| apply incl_refl].
  cbn [snd].
  apply (fold_left_inv (indexField d (toString v))
           (fun acc => incl (postingIn (invertedIndex e) term) (postingIn (snd acc) term))).
  - intros acc field _ Hincl. eapply incl_tran; [exact Hincl | apply indexField_mono].
  - apply incl_refl.
Qed.

Lemma addDocuments_posting docs : forall e term id,
  In id (Spec.posting (addDocuments e docs) term)
  <-> In id (Spec.posting e term)
      \/ exists d, In d docs /\ hasId (options e) d id /\ emits (options e) d term.
Proof.
  induction docs as [| d docs IH]; intros e term id.
  - simpl. split; [auto | intros [Hin | (d & [] & _)]; exact Hin].
  - change (addDocuments e (d :: docs)) with (addDocuments (snd (addDocument e d)) docs).
    rewrite IH, addDocument_options. split.
    + intros [Hin | (d' & Hd' & Hhas & Hem)].
      * apply addDocument_posting_inv in Hin as [Hin | [Hhas Hem]]; [left; exact Hin |].
        right; exists d; split; [left; reflexivity | split; assumption].
      * right; exists d'; split; [right; exact Hd' | split; assumption].
    + intros [Hin | (d' & [<- | Hd'] & Hhas & Hem)].
      * left. apply (addDocument_posting_mono e d term), Hin.
      * left. apply addDocument_posting_here; assumption.
      * right; exists d'; split; [exact Hd' | split; assumption].
Qed.




End WithHost.

End ContentFacts.

(** X17: what the index holds after a sequence of [addDocument] calls on a
    new engine.  An id is in the posting set of a term exactly when one of
    the added documents has that id ([document[idField].toString()], the
    lookup going on to the inherited members) and emits the term from a
    configured string field: nothing else is ever indexed, and nothing
    indexed is lost, not even when the id is added again with other text. *)
Theorem index_holds_the_emitted_terms `{Host}
    (opts : Options.RadiSenseSearchOptions) (docs : list Engine.Document)
    (term id : JSString) :
  In id (Spec.posting (Engine.addDocuments (Engine.constructor opts) docs) term)
  <-> exists d, In d docs /\ Invariant.hasId opts d id /\ Invariant.emits opts d term.
Proof.
  rewrite ContentFacts.addDocuments_posting. cbn. split.
  - intros [[] | Hex]; exact Hex.
  - intros Hex; right; exact Hex.
Qed.



(* ------------------------------------------------------------------ *)
(** ** From ingest to search *)

(** X19: a document that was added is scored by every query it has a word
    for.  When an added document emits a term that starts with a term of
    the query, some configured field is searched and the filter keeps what
    the store holds for its id, the id gets a score in [results]; only the
    threshold and the cap decide then whether it is returned. *)
Theorem prefix_hit_is_scored `{Host}
    (opts : Options.RadiSenseSearchOptions) (docs : list Engine.Document)
    (query : JSString) (filterFunction : Search.Filter)
    (document : Engine.Document) (id term searchTerm : JSString) :
  let e := Engine.addDocuments (Engine.constructor opts) docs in
  In document docs ->
  Invariant.hasId opts document id ->
  Invariant.emits opts document term ->
  In searchTerm (Search.searchTermsOf query) ->
  startsWith term searchTerm = true ->
  Spec.searchedFields e <> [] ->
  Retrieval.ask filterFunction (Coll.get (Engine.documents e) id) = true ->
  In id (Coll.keys (Search.results (Search.accumulate e query filterFunction))).
Proof.
  intros e Hdoc Hhas Hem Hterm Hprefix Hsearched Hask.
  assert (Hpost : In id (Spec.posting e term)).
  { unfold e. rewrite ContentFacts.addDocuments_posting. right.
    exists document. repeat split; assumption. }
  destruct (StoreFacts.addDocuments_ok docs (Engine.constructor opts)
              (StoreFacts.constructor_ok opts)) as [[_ Hent] _].
  fold e in Hent.
  unfold Spec.posting in Hpost.
  destruct (Coll.get (Engine.invertedIndex e) term) as [ids |] eqn:Eg; [| destruct Hpost].
  apply MapFacts.get_In in Eg.
  destruct (Hent _ _ Eg) as (_ & _ & _ & Hsub).
  pose proof (proj2 (IngestFacts.get_In_keys _ _) (Hsub _ Hpost)) as [doc Hstored].
  rewrite Hstored in Hask.
  destruct (Spec.searchedFields e) as [| field rest] eqn:Ef; [congruence |].
  assert (Hfield : In field (Spec.searchedFields e)) by (rewrite Ef; left; reflexivity).
  apply RetrievalFacts.searchedFields_In in Hfield as [Hfield Hskip].
  apply (RetrievalFacts.accumulate_complete e query filterFunction id field Hfield Hskip).
  exists doc, searchTerm, (term, ids).
  split; [exact Hstored |]. split; [exact Hask |]. split; [exact Hterm |].
  split; [exact Eg |]. split; [| exact Hpost].
  unfold Retrieval.matches, Search.isPrefixMatch. cbn [fst]. rewrite Hprefix. reflexivity.
Qed.

Lemma prefix_hit_is_scored_witness :
  In (lit "hel") (Search.searchTermsOf (H := Sample.host) (lit "Hel"))
  /\ startsWith (lit "hello") (lit "hel") = true
  /\ In (lit "/a")
        (Coll.keys (Search.results
           (Search.accumulate (H := Sample.host) Sample.engineA (lit "Hel") None))).
Proof.
  split; [left; reflexivity |]. split; [reflexivity |].
  apply (prefix_hit_is_scored (H := Sample.host) Sample.opts0 [Sample.docA] (lit "Hel") None
           Sample.docA (lit "/a") (lit "hello") (lit "hel")).
  - left; reflexivity.
  - exists (Sample.str "/a"); split; reflexivity.
  - exists (lit "title"), (lit "Hello"). split; [left; reflexivity |].
    split; [reflexivity | left; reflexivity].
  - left; reflexivity.
  - reflexivity.
  - discriminate.
  - reflexivity.
Defined.

(* ------------------------------------------------------------------ *)
(** ** The wildcard query, with a filter *)

(** X20: the wildcard query returns the listed ids whose store answer the
    filter keeps, in the order of [initialResults], each with score 1 and
    with the store answer as its document; no threshold and no cap apply,
    and the index is not consulted. *)
Theorem wildcard_entries `{Host} (e : Engine.State) (filterFunction : Search.Filter) :
  let ids := match Options.initialResults (Engine.options e) with
             | Some ids => ids
             | None => []
             end in
  map Search.documentId (Search.search e (lit "*") filterFunction)
  = filter (fun id => Retrieval.ask filterFunction (Coll.get (Engine.documents e) id)) ids
  /\ Forall (fun r => Search.score r = 1%float
                      /\ Search.document r
                         = Coll.get (Engine.documents e) (Search.documentId r))
            (Search.search e (lit "*") filterFunction).
Proof.
  intros ids; unfold ids, Search.search, Search.search_traced, Search.wildcard.
  cbn [str_eqb fst]. change (str_eqb (lit "*") (lit "*")) with true. cbv iota. cbn [fst].
  destruct (Options.initialResults (Engine.options e)) as [l |];
    [| split; [reflexivity | constructor]].
  split.
  - induction l as [| id l IH]; [reflexivity |].
    cbn [map filter Search.document]. unfold Retrieval.ask in *.
    destruct filterFunction as [f |].
    + destruct (f (Coll.get (Engine.documents e) id)); cbn [map]; rewrite IH; reflexivity.
    + cbn [map]. rewrite IH. reflexivity.
  - apply Forall_forall. intros r Hr. apply filter_In in Hr as [Hr _].
    apply in_map_iff in Hr as (id & <- & _). split; reflexivity.
Qed.

(* ------------------------------------------------------------------ *)
(** ** The threshold and the cap *)

Module FloatFacts.

Lemma SFeqb_refl (x : spec_float) : x <> S754_nan -> SFeqb x x = true.
Proof.
  destruct x as [s | s | | s m e]; intros Hx.
  - reflexivity.
  - destruct s; reflexivity.
  - congruence.
  - unfold SFeqb, SFcompare.
    destruct s; rewrite Z.compare_refl, Pos.compare_cont_refl; reflexivity.
Qed.

(** A number that something is below is not NaN. *)
Lemma ltb_not_nan (x y : float) :
  PrimFloat.ltb x y = true -> PrimFloat.is_nan y = false.
Proof.
  rewrite FloatAxioms.ltb_spec. unfold PrimFloat.is_nan.
  rewrite FloatAxioms.eqb_spec. intros Hlt.
  rewrite SFeqb_refl; [reflexivity |].
  intros E. rewrite E in Hlt. unfold SFltb, SFcompare in Hlt.
  destruct (Prim2SF x); discriminate.
Qed.

End FloatFacts.

(** X21: on a query other than the wildcard [search] returns at most 34
    entries, and every returned score is over 2.1; so no returned score is
    NaN, whatever went into the sort. *)
Theorem search_cap_and_threshold `{Host} (e : Engine.State) (query : JSString)
    (filterFunction : Search.Filter) :
  str_eqb query (lit "*") = false ->
  length (Search.search e query filterFunction) <= 34
  /\ Forall (fun r => PrimFloat.ltb 2.1 (Search.score r) = true
                      /\ PrimFloat.is_nan (Search.score r) = false)
            (Search.search e query filterFunction).
Proof.
  intros Hq.
  destruct (ResultFacts.search_bounds e query filterFunction Hq) as [Hlen Hover].
  split; [exact Hlen |].
  apply Forall_forall. intros r Hr. rewrite Forall_forall in Hover.
  split; [apply Hover, Hr |].
  apply (FloatFacts.ltb_not_nan 2.1), Hover, Hr.
Qed.

Lemma search_cap_and_threshold_witness :
  str_eqb (lit "hello") (lit "*") = false
  /\ length (Search.search (H := Sample.host) Sample.engineRank (lit "hello") None) <= 34
  /\ Forall (fun r => PrimFloat.ltb 2.1 (Search.score r) = true
                      /\ PrimFloat.is_nan (Search.score r) = false)
            (Search.search (H := Sample.host) Sample.engineRank (lit "hello") None).
Proof.
  split; [reflexivity |].
  apply (search_cap_and_threshold (H := Sample.host) Sample.engineRank (lit "hello") None).
  reflexivity.
Defined.

(* ------------------------------------------------------------------ *)
(** ** The worker and the hook *)

Module WorkerFacts.
Import Coll Options Engine.

Section WithHost.
Context `{Host}.

(** A batch in which every document has the id field is added whole. *)
Lemma forEach_addDocument_all docs : forall e,
  Forall (fun d => lookup d (idField (options e)) <> None) docs ->
  Worker.forEach_addDocument (Some e) docs = (Normal, Some (addDocuments e docs)).
Proof.
  induction docs as [| d docs IH]; intros e Hall; [reflexivity |].
  inversion Hall as [| ? ? Hd Hrest]; subst.
  cbn [Worker.forEach_addDocument addDocuments fold_left].
  assert (Ho : options (snd (addDocument e d)) = options e)
    by apply IngestFacts.addDocument_options.
  unfold addDocument in *.
  destruct (lookup d (idField (options e))) as [idValue |]; [| congruence].
  cbn [snd] in Ho |- *. apply IH. rewrite Ho. exact Hrest.
Qed.

(** The loop ends at the first document without the id field. *)
Lemma forEach_addDocument_stops before : forall e d after,
  Forall (fun d => lookup d (idField (options e)) <> None) before ->
  lookup d (idField (options e)) = None ->
  Worker.forEach_addDocument (Some e) (before ++ d :: after)
  = (ThrowTypeError, Some (addDocuments e before)).
Proof.
  induction before as [| b before IH]; intros e d after Hall Hd.
  - cbn [app Worker.forEach_addDocument addDocuments fold_left].
    unfold addDocument. rewrite Hd. reflexivity.
  - inversion Hall as [| ? ? Hb Hrest]; subst.
    cbn [app Worker.forEach_addDocument addDocuments fold_left].
    assert (Ho : options (snd (addDocument e b)) = options e)
      by apply IngestFacts.addDocument_options.
    unfold addDocument in *.
    destruct (lookup b (idField (options e))) as [idValue |]; [| congruence].
    cbn [snd] in Ho |- *. apply IH; rewrite Ho; assumption.
Qed.

(** With nothing indexed, nothing is found. *)
Lemma search_empty_index e query filterFunction :
  str_eqb query (lit "*") = false ->
  invertedIndex e = [] ->
  Search.search e query filterFunction = [].
Proof.
  intros Hq Hindex. apply ReturnFacts.no_candidate_no_result; [exact Hq |].
  intros id (doc & searchTerm & entry & _ & _ & _ & Hentry & _).
  rewrite Hindex in Hentry; destruct Hentry.
Qed.
End WithHost.

End WorkerFacts.

(** X22: the message that the hook posts when the cache answers carries the
    documents beside [data], not in it, so the worker throws at
    [data.documents] before any document is added: the engine is as it was
    and nothing is posted.  After [create] that is the new engine, on which
    every query other than the wildcard returns the empty list. *)
Theorem cached_documents_are_not_indexed `{Host} (engine : option Engine.State)
    (cachedCSV : list Engine.Document) :
  Worker.onmessage engine (Hook.cachedMessage cachedCSV)
  = Some (Engine.ThrowTypeError, engine, [])
  /\ Worker.onmessage engine Hook.createMessage
     = Some (Engine.Normal, Some (Engine.constructor Worker.createOptions), [])
  /\ forall query filterFunction,
       str_eqb query (lit "*") = false ->
       Search.search (Engine.constructor Worker.createOptions) query filterFunction = [].
Proof.
  split; [reflexivity |]. split; [reflexivity |].
  intros query filterFunction Hq.
  apply WorkerFacts.search_empty_index; [exact Hq | reflexivity].
Qed.

(** X23: a chunk of documents posted by the hook is added by the worker in
    order, as by that many calls of [addDocument], and [Documents indexed]
    is posted when the chunk is the last; but a document without the id
    field ([document[idField]] is [undefined]) ends the handler: the
    documents before it are added, those after it are not, and nothing is
    posted even for the last chunk.  Before [create] a chunk with a document
    throws as well. *)
Theorem chunk_is_added_up_to_a_missing_id `{Host} (e : Engine.State)
    (before after : list Engine.Document) (last : bool) :
  Forall (fun d => Engine.lookup d (Options.idField (Engine.options e)) <> None) before ->
  Worker.onmessage (Some e) (Hook.chunkMessage before last)
  = Some (Engine.Normal, Some (Engine.addDocuments e before),
          if last then [Worker.Status (lit "Documents indexed")] else [])
  /\ (forall d, Engine.lookup d (Options.idField (Engine.options e)) = None ->
        Worker.onmessage (Some e) (Hook.chunkMessage (before ++ d :: after) last)
        = Some (Engine.ThrowTypeError, Some (Engine.addDocuments e before), []))
  /\ (forall d, Worker.onmessage None (Hook.chunkMessage (d :: after) last)
                = Some (Engine.ThrowTypeError, None, [])).
Proof.
  intros Hall. split; [| split].
  - unfold Worker.onmessage, Hook.chunkMessage, Worker.insertMultiple.
    cbn [Worker.action Worker.data Worker.documents Worker.isLast].
    change (str_eqb (lit "insertMultiple") (lit "create")) with false.
    change (str_eqb (lit "insertMultiple") (lit "insertMultiple")) with true.
    cbv iota. rewrite (WorkerFacts.forEach_addDocument_all before e Hall).
    reflexivity.
  - intros d Hd.
    unfold Worker.onmessage, Hook.chunkMessage, Worker.insertMultiple.
    cbn [Worker.action Worker.data Worker.documents Worker.isLast].
    change (str_eqb (lit "insertMultiple") (lit "create")) with false.
    change (str_eqb (lit "insertMultiple") (lit "insertMultiple")) with true.
    cbv iota. rewrite (WorkerFacts.forEach_addDocument_stops before e d after Hall Hd).
    reflexivity.
  - intros d. reflexivity.
Qed.

Lemma chunk_is_added_up_to_a_missing_id_witness :
  let e := Engine.constructor Worker.createOptions in
  let first := [(lit "path", Sample.str "/1/privat/bolan.html");
                (lit "title", Sample.str "Bolan")] in
  let second := [(lit "title", Sample.str "Spara")] in
  let third := [(lit "path", Sample.str "/1/privat/spara.html")] in
  Forall (fun d => Engine.lookup d (Options.idField (Engine.options e)) <> None) [first]
  /\ Worker.onmessage (H := Sample.host) (Some e)
       (Hook.chunkMessage [first; second; third] true)
     = Some (Engine.ThrowTypeError,
             Some (Engine.addDocuments (H := Sample.host) e [first]), []).
Proof.
  intros e first second third.
  assert (Hall : Forall (fun d => Engine.lookup d (Options.idField (Engine.options e))
                                  <> None)
                        [first]).
  { constructor; [discriminate | constructor]. }
  split; [exact Hall |].
  apply (proj1 (proj2 (chunk_is_added_up_to_a_missing_id (H := Sample.host)
                         e [first] [third] true Hall)) second).
  reflexivity.
Defined.
